(** * rtcstats-server: session ingestion and the bounded extraction queue

    A shallow embedding of [app.js].  The server is a single-threaded
    event loop: every callback of the source ([wss.on('connection')],
    [client.on('message')], [p.on('exit')], ...) becomes a computation
    over an explicit [world] record that holds the module-level objects
    ([q], the metrics), the closures created per connection and per
    forked worker, the [process.nextTick] queue, and the working
    directory.  Uncaught JavaScript exceptions are explicit: a handler
    is a state-and-exception computation, and [try]/[catch] keeps the
    mutations made before the throw. *)

From stdpp Require Import base option list strings pretty gmap.
From Stdlib Require Import ZArith Ascii.

Local Open Scope string_scope.
Local Open Scope Z_scope.
Local Open Scope list_scope.

(** ** JSON values *)

(** The result of [JSON.parse].  Numbers are only ever copied by the
    handlers, never inspected; they are carried as integers. *)
#[warnings="-register-all"]
Inductive json : Type :=
  | JNull
  | JBool (b : bool)
  | JNum (n : Z)
  | JStr (s : string)
  | JArr (items : list json)
  | JObj (props : list (string * json)).

(** A JavaScript exception value. *)
Inductive exn : Type :=
  | SyntaxError (source : string)
  | TypeError (what : string)
  | ObfuscatorError (data : json).

(** Built-ins and collaborators whose code is not part of [app.js]:
    the JSON codec, [String.prototype.trim], the [maxmind] reader and
    the [./obfuscator] module.  [None] stands for a thrown exception.
    [obfuscate] mutates its argument in place; the argument is the
    fresh, unshared result of [JSON.parse], so the mutation is the
    value the same variable holds afterwards. *)
Class Builtins : Type := {
  JSON_parse : string → option json;
  JSON_stringify : json → string;
  String_trim : string → string;
  cityLookup_get : string → json;
  obfuscate : json → option json
}.

(** ** The world *)

(** [class ProcessQueue]: the three instance fields. *)
Record ProcessQueue : Type := mkProcessQueue {
  maxProc : Z;
  q : list string;
  numProc : Z
}.

(** The variables one run of the ['connection'] callback closes over.
    [tempStream] is the path of the write stream the variable refers
    to, or [None] once it has been set to [null]. *)
Record session : Type := mkSession {
  clientid : string;
  numberOfEvents : Z;
  tempStream : option string
}.

(** A callback handed to [process.nextTick]. *)
Inductive tick : Type :=
  | TkProcess
  | TkLocation (conn : nat) (address : string).

(** The message a worker sends over the IPC channel. *)
Record result_msg : Type := mkResult {
  msg_url : json;
  msg_clientid : json;
  msg_connid : json;
  msg_clientFeatures : json;
  msg_connectionFeatures : json;
  msg_streamFeatures : json
}.

(** Calls that leave the process, in the order they are made. *)
Inductive effect : Type :=
  | Fork (script : string) (arg : string)
  | Unlink (path : string)
  | StorePut (key : string) (data : string)
  | DatabasePut (m : result_msg).

(** One constructor per [console.log] / [console.error] site. *)
Inductive log_entry : Type :=
  | LogQueueTooLong (n : Z)
  | LogDone (id : string) (n : Z) (code : option Z)
  | LogCouldNotOpen (id : string)
  | LogRescheduling (id : string) (n : Z)
  | LogProcessQ (n : Z)
  | LogConnected (ua referer : option string) (id : string)
  | LogErrorWhileProcessing (e : exn) (msg : string).

Record world : Type := mkWorld {
  pq : ProcessQueue;               (* const q = new ProcessQueue() *)
  nextTicks : list tick;           (* callbacks queued by process.nextTick *)
  clock : Z;                       (* what Date.now() returns *)
  sessions : list session;         (* one closure per accepted connection *)
  workers : list string;           (* clientid captured by each forked child *)
  reads : list string;             (* fs.readFile requests not yet completed *)
  files : gmap string string;      (* the file system, path to contents *)
  outbox : list effect;
  connected : Z;                   (* prom gauge *)
  processed : Z;                   (* prom counter *)
  errored : Z;                     (* prom counter *)
  console : list log_entry
}.

Definition set_pq (f : ProcessQueue → ProcessQueue) (w : world) : world :=
  mkWorld (f (pq w)) (nextTicks w) (clock w) (sessions w) (workers w) (reads w)
          (files w) (outbox w) (connected w) (processed w) (errored w) (console w).
Definition set_nextTicks (f : list tick → list tick) (w : world) : world :=
  mkWorld (pq w) (f (nextTicks w)) (clock w) (sessions w) (workers w) (reads w)
          (files w) (outbox w) (connected w) (processed w) (errored w) (console w).
Definition set_clock (t : Z) (w : world) : world :=
  mkWorld (pq w) (nextTicks w) t (sessions w) (workers w) (reads w)
          (files w) (outbox w) (connected w) (processed w) (errored w) (console w).
Definition set_sessions (f : list session → list session) (w : world) : world :=
  mkWorld (pq w) (nextTicks w) (clock w) (f (sessions w)) (workers w) (reads w)
          (files w) (outbox w) (connected w) (processed w) (errored w) (console w).
Definition set_workers (f : list string → list string) (w : world) : world :=
  mkWorld (pq w) (nextTicks w) (clock w) (sessions w) (f (workers w)) (reads w)
          (files w) (outbox w) (connected w) (processed w) (errored w) (console w).
Definition set_reads (f : list string → list string) (w : world) : world :=
  mkWorld (pq w) (nextTicks w) (clock w) (sessions w) (workers w) (f (reads w))
          (files w) (outbox w) (connected w) (processed w) (errored w) (console w).
Definition set_files (f : gmap string string → gmap string string)
    (w : world) : world :=
  mkWorld (pq w) (nextTicks w) (clock w) (sessions w) (workers w) (reads w)
          (f (files w)) (outbox w) (connected w) (processed w) (errored w) (console w).
Definition set_outbox (f : list effect → list effect) (w : world) : world :=
  mkWorld (pq w) (nextTicks w) (clock w) (sessions w) (workers w) (reads w)
          (files w) (f (outbox w)) (connected w) (processed w) (errored w) (console w).
Definition set_connected (f : Z → Z) (w : world) : world :=
  mkWorld (pq w) (nextTicks w) (clock w) (sessions w) (workers w) (reads w)
          (files w) (outbox w) (f (connected w)) (processed w) (errored w) (console w).
Definition set_processed (f : Z → Z) (w : world) : world :=
  mkWorld (pq w) (nextTicks w) (clock w) (sessions w) (workers w) (reads w)
          (files w) (outbox w) (connected w) (f (processed w)) (errored w) (console w).
Definition set_errored (f : Z → Z) (w : world) : world :=
  mkWorld (pq w) (nextTicks w) (clock w) (sessions w) (workers w) (reads w)
          (files w) (outbox w) (connected w) (processed w) (f (errored w)) (console w).
Definition set_console (f : list log_entry → list log_entry) (w : world) : world :=
  mkWorld (pq w) (nextTicks w) (clock w) (sessions w) (workers w) (reads w)
          (files w) (outbox w) (connected w) (processed w) (errored w) (f (console w)).

(** ** Computations: state threaded through, exceptions on the side *)

Inductive outcome (A : Type) : Type :=
  | Ret (a : A)
  | Throw (e : exn).
Arguments Ret {A} a.
Arguments Throw {A} e.

Definition M (A : Type) : Type := world → outcome A * world.

#[global] Instance M_ret : MRet M := λ A a w, (Ret a, w).
#[global] Instance M_bind : MBind M := λ A B f m w,
  match m w with
  | (Ret a, w') => f a w'
  | (Throw e, w') => (Throw e, w')
  end.

Definition throw {A} (e : exn) : M A := λ w, (Throw e, w).
Definition get : M world := λ w, (Ret w, w).
Definition modify (f : world → world) : M unit := λ w, (Ret (), f w).

(** [try { body } catch (e) { handler e }]. *)
Definition try_catch {A} (body : M A) (handler : exn → M A) : M A := λ w,
  match body w with
  | (Ret a, w') => (Ret a, w')
  | (Throw e, w') => handler e w'
  end.

Definition lift {A} (r : outcome A) : M A := λ w, (r, w).
Definition when (b : bool) (m : M unit) : M unit := if b then m else mret ().

(** ** Primitive operations *)

Definition tempPath : string := "temp".
Definition file_of (id : string) : string := tempPath +:+ "/" +:+ id.

Definition console_log (e : log_entry) : M unit := modify (set_console (λ l, l ++ [e])).
Definition emit (e : effect) : M unit := modify (set_outbox (λ l, l ++ [e])).
Definition nextTick (t : tick) : M unit := modify (set_nextTicks (λ l, l ++ [t])).
Definition Date_now : M Z := w ← get; mret (clock w).

(** [fs.unlink(path, () => {})]: errors are ignored by the callback. *)
Definition fs_unlink (path : string) : M unit :=
  emit (Unlink path);; modify (set_files (delete path)).

(** [fs.createWriteStream(path)] creates or truncates the file; [write]
    appends.  Buffering is not modelled: by the time ['finish'] fires
    every chunk written before [end()] is in the file. *)
Definition fs_createWriteStream (path : string) : M unit :=
  modify (set_files (<[path := ""]>)).
Definition stream_write (path chunk : string) : M unit :=
  modify (set_files (alter (λ c, c +:+ chunk) path)).

(** Modelled from the spec: the modules [./store] and [./database] are
    not among the sources.  Section 6 gives their interfaces,
    [put(id, rawLogBytes)] and [put(origin, sessionId, connectionId,
    clientFeatures, connectionFeatures, streamFeatures)], both fire and
    forget: the call is recorded in the outbox and returns. *)
Definition Store_put (key data : string) : M unit := emit (StorePut key data).
Definition Database_put (m : result_msg) : M unit := emit (DatabasePut m).

(** ** [class ProcessQueue] *)

Definition q_push (id : string) : M unit :=
  modify (set_pq (λ p, mkProcessQueue (maxProc p) (q p ++ [id]) (numProc p))).

(** [this.q.shift()]: [None] is [undefined], returned on an empty array. *)
Definition q_shift : M (option string) := λ w,
  match q (pq w) with
  | [] => (Ret None, w)
  | id :: rest =>
      (Ret (Some id),
       set_pq (λ p, mkProcessQueue (maxProc p) rest (numProc p)) w)
  end.

Definition set_numProc (f : Z → Z) : M unit :=
  modify (set_pq (λ p, mkProcessQueue (maxProc p) (q p) (f (numProc p)))).

Definition this_numProc : M Z := w ← get; mret (numProc (pq w)).
Definition this_maxProc : M Z := w ← get; mret (maxProc (pq w)).

(** [!clientid] for the result of [shift]: [undefined] and the empty
    string are the falsy cases. *)
Definition falsy (v : option string) : bool :=
  match v with
  | None => true
  | Some s => bool_decide (s = "")
  end.

Definition enqueue (id : string) : M unit :=
  q_push id;;
  n ← this_numProc;
  m ← this_maxProc;
  if bool_decide (n < m) then nextTick TkProcess
  else console_log (LogQueueTooLong n).

(** [child_process.fork('extract.js', [clientid])] followed by the three
    [p.on] registrations: the child is recorded with the [clientid] its
    handlers close over; its pid is its position in [workers]. *)
Definition fork (id : string) : M unit :=
  emit (Fork "extract.js" id);;
  modify (set_workers (λ l, l ++ [id])).

Definition process : M unit :=
  v ← q_shift;
  if falsy v then mret ()
  else
    fork (default "" v);;
    set_numProc Z.succ;;
    n ← this_numProc;
    when (bool_decide (n > 10)) (console_log (LogProcessQ n)).

(** [p.on('exit', (code) => ...)]; [code] is [None] for [null] (the
    child was ended by a signal). *)
Definition on_exit (id : string) (code : option Z) : M unit :=
  set_numProc Z.pred;;
  n ← this_numProc;
  console_log (LogDone id n code);;
  (if bool_decide (code = Some 0)
   then modify (set_processed Z.succ)
   else modify (set_errored Z.succ));;
  n ← this_numProc;
  when (bool_decide (n < 0)) (set_numProc (λ _, 0));;
  n ← this_numProc;
  m ← this_maxProc;
  when (bool_decide (n < m)) (nextTick TkProcess);;
  modify (set_reads (λ l, l ++ [id])).

(** The callback of [fs.readFile]; [res] is [None] for [err]. *)
Definition on_readFile (id : string) (res : option string) : M unit :=
  match res with
  | None => console_log (LogCouldNotOpen id)
  | Some data =>
      fs_unlink (file_of id);;
      Store_put id data
  end.

(** [p.on('message', (msg) => ...)]: the six fields are taken out of
    [msg] and handed to [Database.put]. *)
Definition on_worker_message (m : result_msg) : M unit :=
  Database_put m.

(** [p.on('error', () => ...)]. *)
Definition on_error (id : string) : M unit :=
  set_numProc Z.pred;;
  n ← this_numProc;
  console_log (LogRescheduling id n);;
  q_push id.

(** ** The connection handler and its closures *)

(** The fields of [upgradeReq] the handler reads; [None] is
    [undefined] (header absent, socket already gone). *)
Record request : Type := mkRequest {
  req_url : string;
  header_origin : option string;
  header_user_agent : option string;
  header_x_forwarded_for : option string;
  remoteAddress : option string
}.

(** [tokens[tokens.length - 1]] for [tokens = s.split(",")]: the text
    after the last comma. *)
Fixpoint last_token_from (acc s : string) : string :=
  match s with
  | EmptyString => acc
  | String c rest =>
      if Ascii.eqb c ","%char then last_token_from "" rest
      else last_token_from (acc +:+ String c "") rest
  end.
Definition last_token : string → string := last_token_from "".

(** Truthiness of a value that is a string or [undefined]. *)
Definition truthy (v : option string) : bool := negb (falsy v).

(** [a + b] where [a] may be [undefined]. *)
Definition js_concat (a : option string) (b : string) : string :=
  default "undefined" a +:+ b.

(** A property of an object literal as [JSON.stringify] sees it: a
    property whose value is [undefined] is left out. *)
Definition prop (k : string) (v : option string) : list (string * json) :=
  match v with
  | Some s => [(k, JStr s)]
  | None => []
  end.

(** [o[k]] on an object with the own properties [props] (keys are
    distinct in the result of [JSON.parse]). *)
Fixpoint get_prop (k : string) (props : list (string * json)) : option json :=
  match props with
  | [] => None
  | (k', v) :: rest => if bool_decide (k' = k) then Some v else get_prop k rest
  end.

(** [data[0]].  [None] is [undefined]; reading a property of [null]
    throws.  Indexing a string yields its first character. *)
Definition index0 (data : json) : outcome (option json) :=
  match data with
  | JNull => Throw (TypeError "Cannot read property '0' of null")
  | JBool _ | JNum _ => Ret None
  | JStr s =>
      Ret (match s with
           | EmptyString => None
           | String c _ => Some (JStr (String c ""))
           end)
  | JArr items => Ret (head items)
  | JObj props => Ret (get_prop "0" props)
  end.

(** The [case] labels of the [switch]. *)
Definition getUserMedia_tags : list string :=
  [ "getUserMedia";
    "getUserMediaOnSuccess";
    "getUserMediaOnFailure";
    "navigator.mediaDevices.getUserMedia";
    "navigator.mediaDevices.getUserMediaOnSuccess";
    "navigator.mediaDevices.getUserMediaOnFailure" ].

(** Whether [switch (v)] selects one of the labelled cases ([===]). *)
Definition is_getUserMedia (v : option json) : bool :=
  match v with
  | Some (JStr s) => bool_decide (s ∈ getUserMedia_tags)
  | _ => false
  end.

Definition set_numberOfEvents (f : Z → Z) (s : session) : session :=
  mkSession (clientid s) (f (numberOfEvents s)) (tempStream s).
Definition set_tempStream (v : option string) (s : session) : session :=
  mkSession (clientid s) (numberOfEvents s) v.

(** The current value of the closure variable [tempStream] of
    connection [c]. *)
Definition read_tempStream (c : nat) : M (option string) :=
  w ← get; mret (s ← sessions w !! c; tempStream s).

(** [tempStream.write(chunk)]: a [TypeError] when the variable is
    [null]. *)
Definition tempStream_write (c : nat) (chunk : string) : M unit :=
  ts ← read_tempStream c;
  match ts with
  | None => throw (TypeError "Cannot read property 'write' of null")
  | Some path => stream_write path chunk
  end.

Definition newline : string := String (ascii_of_nat 10) "".

Section Server.
Context `{Builtins}.

Definition getRequestAddress (r : request) : option string :=
  if truthy (header_x_forwarded_for r)
  then String_trim ∘ last_token <$> header_x_forwarded_for r
  else remoteAddress r.

(** [JSON.stringify(v) + '\n']. *)
Definition line (v : json) : string := JSON_stringify v +:+ newline.

Definition meta (r : request) (now : Z) : json :=
  JObj ([("path", JStr (req_url r))]
        ++ prop "origin" (header_origin r)
        ++ [("url", JStr (js_concat (header_origin r) (req_url r)))]
        ++ prop "userAgent" (header_user_agent r)
        ++ [("time", JNum now); ("fileFormat", JNum 2)]).

Definition location_record (city : json) (now : Z) : json :=
  JArr [JStr "location"; JNull; city; JNum now].

Definition close_record (now : Z) : json :=
  JArr [JStr "close"; JNull; JNull; JNum now].

(** [wss.on('connection', (client, upgradeReq) => ...)]; [uuid] is
    what [uuid.v4()] returns.  The new closure is connection number
    [length (sessions w)]. *)
Definition on_connection (r : request) (uuid : string) : M unit :=
  modify (set_connected Z.succ);;
  w ← get;
  let c := length (sessions w) in
  fs_createWriteStream (file_of uuid);;
  modify (set_sessions (λ l, l ++ [mkSession uuid 0 (Some (file_of uuid))]));;
  now ← Date_now;
  tempStream_write c (line (meta r now));;
  match getRequestAddress r with
  | Some address =>
      when (truthy (Some address)) (nextTick (TkLocation c address))
  | None => mret ()
  end;;
  console_log (LogConnected (header_user_agent r)
                 (Some (js_concat (header_origin r) (req_url r))) uuid).

(** The callback given to [process.nextTick] by the connection
    handler. *)
Definition on_location (c : nat) (address : string) : M unit :=
  let city := cityLookup_get address in
  ts ← read_tempStream c;
  match ts with
  | Some path =>
      now ← Date_now;
      stream_write path (line (location_record city now))
  | None => mret ()
  end.

Definition JSON_parse_or_throw (msg : string) : outcome json :=
  match JSON_parse msg with
  | Some data => Ret data
  | None => Throw (SyntaxError msg)
  end.

Definition obfuscate_in_place (data : json) : outcome json :=
  match obfuscate data with
  | Some data' => Ret data'
  | None => Throw (ObfuscatorError data)
  end.

(** [client.on('message', msg => ...)]. *)
Definition on_message (c : nat) (msg : string) : M unit :=
  try_catch
    (data ← lift (JSON_parse_or_throw msg);
     modify (set_sessions (alter (set_numberOfEvents Z.succ) c));;
     tag ← lift (index0 data);
     if is_getUserMedia tag
     then tempStream_write c (line data)
     else
       data' ← lift (obfuscate_in_place data);
       tempStream_write c (line data'))
    (λ e, console_log (LogErrorWhileProcessing e msg)).

(** [client.on('close', () => ...)].  [tempStream.end()] only starts
    the shutdown of the stream; ['finish'] is a later event. *)
Definition on_close (c : nat) : M unit :=
  modify (set_connected Z.pred);;
  now ← Date_now;
  tempStream_write c (JSON_stringify (close_record now));;
  modify (set_sessions (alter (set_tempStream None) c)).

(** [tempStream.on('finish', () => ...)]. *)
Definition on_finish (c : nat) : M unit :=
  w ← get;
  match sessions w !! c with
  | Some s =>
      if bool_decide (numberOfEvents s > 0)
      then enqueue (clientid s)
      else fs_unlink (file_of (clientid s))
  | None => mret ()
  end.

(** ** The event loop *)

(** What the runtime can deliver to the program.  Handlers exist only
    for objects that exist: an event for a connection or a child that
    was never created finds no listener.

    - [EvAdvance t]: time passes, [Date.now()] returns [t] from now on;
    - [EvConnection r uuid]: a client connects, [uuid.v4()] yields [uuid];
    - [EvMessage c msg], [EvClose c]: ['message'] and ['close'] on the
      socket of connection [c];
    - [EvFinish c]: ['finish'] on the write stream of connection [c];
    - [EvTick]: the oldest callback queued by [process.nextTick] runs;
    - [EvWorkerExit], [EvWorkerMessage], [EvWorkerError]: ['exit'],
      ['message'] and ['error'] on child [pid];
    - [EvReadFile i io_ok]: the pending [fs.readFile] number [i]
      completes, with an I/O error when [io_ok] is [false] and with
      what the file system holds otherwise. *)
Inductive event : Type :=
  | EvAdvance (t : Z)
  | EvConnection (r : request) (uuid : string)
  | EvMessage (c : nat) (msg : string)
  | EvClose (c : nat)
  | EvFinish (c : nat)
  | EvTick
  | EvWorkerExit (pid : nat) (code : option Z)
  | EvWorkerMessage (pid : nat) (m : result_msg)
  | EvWorkerError (pid : nat)
  | EvReadFile (i : nat) (io_ok : bool).

Definition run_tick (t : tick) : M unit :=
  match t with
  | TkProcess => process
  | TkLocation c address => on_location c address
  end.

Definition handle (ev : event) : M unit :=
  w ← get;
  match ev with
  | EvAdvance t => modify (set_clock t)
  | EvConnection r uuid => on_connection r uuid
  | EvMessage c msg =>
      if sessions w !! c is Some _ then on_message c msg else mret ()
  | EvClose c =>
      if sessions w !! c is Some _ then on_close c else mret ()
  | EvFinish c => on_finish c
  | EvTick =>
      match nextTicks w with
      | t :: rest => modify (set_nextTicks (λ _, rest));; run_tick t
      | [] => mret ()
      end
  | EvWorkerExit pid code =>
      if workers w !! pid is Some id then on_exit id code else mret ()
  | EvWorkerMessage pid m =>
      if workers w !! pid is Some _ then on_worker_message m else mret ()
  | EvWorkerError pid =>
      if workers w !! pid is Some id then on_error id else mret ()
  | EvReadFile i io_ok =>
      match reads w !! i with
      | Some id =>
          modify (set_reads (delete i));;
          on_readFile id (if io_ok then files w !! file_of id else None)
      | None => mret ()
      end
  end.

(** One handler, run to completion.  [None]: it threw and nothing
    caught the exception, which ends the process. *)
Definition step (ev : event) (w : world) : option world :=
  match handle ev w with
  | (Ret _, w') => Some w'
  | (Throw _, _) => None
  end.

Fixpoint run (evs : list event) (w : world) : option world :=
  match evs with
  | [] => Some w
  | ev :: rest =>
      match step ev w with
      | Some w' => run rest w'
      | None => None
      end
  end.

(** Node runs the callbacks queued by [process.nextTick] as soon as
    the current handler returns, before any other event: [drain]
    empties the queue, and [turn] is a handler followed by that. *)
Fixpoint drain (fuel : nat) (w : world) : option world :=
  match fuel, nextTicks w with
  | _, [] => Some w
  | O, _ :: _ => Some w
  | S fuel', _ :: _ =>
      match step EvTick w with
      | Some w' => drain fuel' w'
      | None => None
      end
  end.

Definition turn (ev : event) (w : world) : option world :=
  w' ← step ev w; drain (length (nextTicks w')) w'.

Fixpoint turns (evs : list event) (w : world) : option world :=
  match evs with
  | [] => Some w
  | ev :: rest =>
      match turn ev w with
      | Some w' => turns rest w'
      | None => None
      end
  end.

End Server.

(** The state [app.js] starts from, after [setupWorkDirectory()] has
    emptied [temp]; [cpus] is [os.cpus().length]. *)
Definition initial (cpus : Z) : world :=
  mkWorld (mkProcessQueue cpus [] 0) [] 0 [] [] [] ∅ [] 0 0 0 [].

(** ** A concrete instance of the built-ins

    Used to run the handlers on concrete inputs.  The codec agrees
    with the real [JSON.parse] on the handful of texts below and
    rejects every other text; the examples only feed it those texts
    and texts that are not JSON. *)
Module Demo.

Definition dq : string := String (ascii_of_nat 34) "".
Definition quoted (s : string) : string := dq +:+ s +:+ dq.

Fixpoint stringify (v : json) : string :=
  match v with
  | JNull => "null"
  | JBool b => if b then "true" else "false"
  | JNum n => pretty n
  | JStr s => quoted s
  | JArr items =>
      "[" +:+ (fix go (l : list json) : string :=
                 match l with
                 | [] => ""
                 | [x] => stringify x
                 | x :: rest => stringify x +:+ "," +:+ go rest
                 end) items +:+ "]"
  | JObj props =>
      "{" +:+ (fix go (l : list (string * json)) : string :=
                 match l with
                 | [] => ""
                 | [(k, x)] => quoted k +:+ ":" +:+ stringify x
                 | (k, x) :: rest =>
                     quoted k +:+ ":" +:+ stringify x +:+ "," +:+ go rest
                 end) props +:+ "}"
  end.

Definition gum_event : json := JArr [JStr "getUserMedia"; JNull; JBool true].
Definition custom_event : json := JArr [JStr "custom"; JNull; JStr "secret"].

Definition gum_text : string := stringify gum_event.
Definition custom_text : string := stringify custom_event.

Definition parse (s : string) : option json :=
  if bool_decide (s = gum_text) then Some gum_event
  else if bool_decide (s = custom_text) then Some custom_event
  else if bool_decide (s = "null") then Some JNull
  else if bool_decide (s = "7") then Some (JNum 7)
  else None.

Fixpoint drop_spaces (s : string) : string :=
  match s with
  | String c rest => if Ascii.eqb c " "%char then drop_spaces rest else s
  | EmptyString => EmptyString
  end.
Definition trim (s : string) : string :=
  String.rev (drop_spaces (String.rev (drop_spaces s))).

(** Redacts the third element of an event; anything that is not an
    array makes it throw. *)
Definition scrub (data : json) : option json :=
  match data with
  | JArr (tag :: peer :: _ :: rest) =>
      Some (JArr (tag :: peer :: JStr "***" :: rest))
  | JArr items => Some (JArr items)
  | _ => None
  end.

#[export] Instance builtins : Builtins := {|
  JSON_parse := parse;
  JSON_stringify := stringify;
  String_trim := trim;
  cityLookup_get := λ _, JNull;
  obfuscate := scrub
|}.

Definition request1 : request :=
  mkRequest "/trace" (Some "https://example.org") (Some "Firefox")
            None (Some "203.0.113.9").

(** Connection 0: opened at time 1000 by [request1] under the
    identifier [id-1], closed at time 2000. *)
Definition start : world := set_clock 1000 (initial 2).
Definition talk : list event :=
  [EvMessage 0 gum_text; EvMessage 0 "not json"; EvMessage 0 custom_text;
   EvAdvance 2000].
Definition silence : list event := [EvMessage 0 "not json"; EvAdvance 2000].
Definition session_of (evs : list event) : list event :=
  EvConnection request1 "id-1" :: evs ++ [EvClose 0].

(** The world after [evs], by whole turns and by single steps. *)
Definition after (w : world) (evs : list event) : world :=
  default w (turns evs w).
Definition after_steps (w : world) (evs : list event) : world :=
  default w (run evs w).

Definition talked : world := after start (session_of talk).
Definition silent : world := after start (session_of silence).

(** What the rest of the server does after connection 0 is done:
    another client connects and sends an event. *)
Definition aftermath : list event :=
  [EvConnection request1 "id-2"; EvMessage 1 gum_text].

(** Connection 0 right after the handler of its handshake, with the
    tick still queued, and after the whole turn. *)
Definition handshaken : world :=
  after_steps start [EvConnection request1 "id-1"].
Definition streaming0 : world := after start [EvConnection request1 "id-1"].

(** Two sessions [a] and [b], each with one event, on two CPUs: both
    are dispatched at once, as workers 0 and 1. *)
Definition two_sessions : list event :=
  [EvConnection request1 "a"; EvMessage 0 gum_text; EvClose 0; EvFinish 0;
   EvConnection request1 "b"; EvMessage 1 gum_text; EvClose 1; EvFinish 1].

(** Worker 0 reports ['error'] and then ['exit'], which dispatches
    [a] again as worker 2; workers 1 and 2 then both fail to spawn. *)
Definition unbalanced : list event :=
  [EvWorkerError 0; EvWorkerExit 0 (Some 1); EvWorkerError 1; EvWorkerError 2].

Definition dispatched : world := after (initial 2) two_sessions.
Definition exited : world := after dispatched [EvWorkerExit 0 (Some 1)].

End Demo.

(** ** Reading the outbox *)

(** The calls made to [Store.put] and to [Database.put], oldest first. *)
Definition store_puts (l : list effect) : list (string * string) :=
  omap (λ e, match e with StorePut k d => Some (k, d) | _ => None end) l.
Definition database_puts (l : list effect) : list result_msg :=
  omap (λ e, match e with DatabasePut m => Some m | _ => None end) l.

(** The lines of a text: what stands between its newline characters. *)
Fixpoint log_lines_from (acc s : string) : list string :=
  match s with
  | EmptyString => [acc]
  | String c rest =>
      if Ascii.eqb c (ascii_of_nat 10) then acc :: log_lines_from "" rest
      else log_lines_from (acc +:+ String c "") rest
  end.
Definition log_lines : string → list string := log_lines_from "".

(** The chunk the ['message'] handler appends for [msg]: nothing when
    any step before the write throws. *)
Definition event_chunk `{Builtins} (msg : string) : string :=
  match JSON_parse msg with
  | None => ""
  | Some data =>
      match index0 data with
      | Throw _ => ""
      | Ret tag =>
          if is_getUserMedia tag then line data
          else match obfuscate data with
               | Some data' => line data'
               | None => ""
               end
      end
  end.

(** How many of the texts [JSON.parse] accepts. *)
Definition parsed_count `{Builtins} (msgs : list string) : Z :=
  Z.of_nat (length (filter (λ m, is_Some (JSON_parse m)) msgs)).

(** The tick the connection handler queues for request [r]. *)
Definition location_ticks `{Builtins} (c : nat) (r : request) : list tick :=
  match getRequestAddress r with
  | Some a => if truthy (Some a) then [TkLocation c a] else []
  | None => []
  end.

(** The fields no handler of a connection touches. *)
Definition same_backend (w w' : world) : Prop :=
  pq w' = pq w ∧ nextTicks w' = nextTicks w ∧ clock w' = clock w
  ∧ workers w' = workers w ∧ reads w' = reads w ∧ outbox w' = outbox w
  ∧ connected w' = connected w ∧ processed w' = processed w
  ∧ errored w' = errored w.

(** ** One connection among the others

    [foreign c id] holds of the events that belong to other
    connections, to workers and to the runtime: everything except the
    ['close'] and ['finish'] of connection [c], its messages, and a
    second [uuid.v4()] returning [id]. *)
Definition foreign `{Builtins} (c : nat) (id : string) (ev : event) : Prop :=
  match ev with
  | EvConnection _ uuid => uuid ≠ id
  | EvMessage c' _ | EvClose c' | EvFinish c' => c' ≠ c
  | _ => True
  end.


Definition messages_of `{Builtins} (c : nat) (evs : list event) : list string :=
  omap (λ ev, match ev with
              | EvMessage c' msg => if decide (c' = c) then Some msg else None
              | _ => None
              end) evs.

(** No other closure refers to [id] or to its file. *)
Definition others_apart (c : nat) (id : string) (l : list session) : Prop :=
  ∀ c' s', c' ≠ c → l !! c' = Some s' →
    clientid s' ≠ id ∧ tempStream s' ≠ Some (file_of id).

(** [id] is the identifier of connection [c] and of nothing else: it
    is not queued, no worker and no pending read was given it, and the
    tick of [c] has already run. *)
Record apart (c : nat) (id : string) (w : world) : Prop := mkApart {
  apart_conn : (c < length (sessions w))%nat;
  apart_sessions : others_apart c id (sessions w);
  apart_q : id ∉ q (pq w);
  apart_workers : id ∉ workers w;
  apart_reads : id ∉ reads w;
  apart_ticks : ∀ a, TkLocation c a ∉ nextTicks w
}.

(** [id] has not been handed out yet. *)
Definition fresh (id : string) (w : world) : Prop :=
  (∀ s, s ∈ sessions w → clientid s ≠ id ∧ tempStream s ≠ Some (file_of id))
  ∧ (id ∉ q (pq w)) ∧ (id ∉ workers w) ∧ (id ∉ reads w).

(** The contents of a file that received [chunks] in this order. *)
Definition written (chunks : list string) : string :=
  foldr String.append "" chunks.

(** The chunk the queued tick writes for request [r], if one is
    queued. *)
Definition location_chunks `{Builtins} (r : request) (now : Z) : list string :=
  match getRequestAddress r with
  | Some a =>
      if truthy (Some a)
      then [line (location_record (cityLookup_get a) now)] else []
  | None => []
  end.

(** What one event adds to the counter of connection [c]. *)
Definition counted `{Builtins} (c : nat) (ev : event) : Z :=
  match ev with
  | EvMessage c' msg =>
      if decide (c' = c) then (if JSON_parse msg is Some _ then 1 else 0) else 0
  | _ => 0
  end.


(** What the ['message'] handler has in hand when it reaches the
    write: the value to serialise, or the exception thrown on the way. *)
Definition processed_event `{Builtins} (msg : string) : outcome json :=
  match JSON_parse msg with
  | None => Throw (SyntaxError msg)
  | Some data =>
      match index0 data with
      | Throw e => Throw e
      | Ret tag =>
          if is_getUserMedia tag then Ret data else obfuscate_in_place data
      end
  end.

(** ** More of [app.js]: what the claims leave out *)

(** [s.split(",")]: never empty, one more token than there are commas. *)
Fixpoint split_from (acc s : string) : list string :=
  match s with
  | EmptyString => [acc]
  | String c rest =>
      if Ascii.eqb c ","%char then acc :: split_from "" rest
      else split_from (acc +:+ String c "") rest
  end.
Definition split_comma : string → list string := split_from "".

Fixpoint has_comma (s : string) : bool :=
  match s with
  | EmptyString => false
  | String c rest => Ascii.eqb c ","%char || has_comma rest
  end.

(** The connections whose [tempStream] is still there. *)
Definition open_connections (w : world) : Z :=
  Z.of_nat (length (filter (λ s, is_Some (tempStream s)) (sessions w))).

(** [id] is the identifier of a connection that has counted an event. *)
Definition counted_session (id : string) (w : world) : Prop :=
  ∃ c s, sessions w !! c = Some s ∧ clientid s = id ∧ 0 < numberOfEvents s.

(** Every identifier the queue knows of, pending, forked or being
    read, belongs to such a connection. *)
Definition only_counted (w : world) : Prop :=
  ∀ id, id ∈ q (pq w) ∨ id ∈ workers w ∨ id ∈ reads w → counted_session id w.

(** What is at a path now continues what was there before: the old
    contents with something appended, or no file any more; where
    there was no file there is none now. *)
Definition continues (before now : option string) : Prop :=
  match before, now with
  | _, None => True
  | Some old, Some x => ∃ more, x = old +:+ more
  | None, Some _ => False
  end.

(** A handshake that is given the identifier of [path] again. *)
Definition reopens (path : string) (ev : event) : Prop :=
  match ev with
  | EvConnection _ uuid => file_of uuid = path
  | _ => False
  end.

(** The child an event is the last word of: ['exit'] or ['error']. *)
Definition terminal (ev : event) : option nat :=
  match ev with
  | EvWorkerExit pid _ | EvWorkerError pid => Some pid
  | _ => None
  end.

(** [numProc] is the number of children forked less the children
    [reported] that have reported. *)
Definition live_count (w : world) (reported : list nat) : Prop :=
  NoDup reported
  ∧ (∀ p, p ∈ reported → (p < length (workers w))%nat)
  ∧ numProc (pq w) = Z.of_nat (length (workers w)) - Z.of_nat (length reported).

Definition terminals (evs : list event) : list nat := omap terminal evs.


(** ** [setupWorkDirectory]

    The function only looks at [tempPath] and one level below it, so
    the file system is what is found there: nothing, something that is
    not a directory, or a directory with its entries in the order
    [readdirSync] lists them.  A subdirectory is an entry whose
    contents play no part.  The [Sync] calls return the new state or
    throw an error code, as on POSIX. *)
Module WorkDir.

Inductive entry : Type :=
  | RegularFile (content : string)
  | Subdirectory.

Inductive at_temp : Type :=
  | Missing
  | NotADirectory
  | Directory (entries : list (string * entry)).

Inductive fs_error : Type := ENOENT | ENOTDIR | EISDIR | ENOTEMPTY | EEXIST.

Definition readdirSync (t : at_temp) : fs_error + list string :=
  match t with
  | Missing => inl ENOENT
  | NotADirectory => inl ENOTDIR
  | Directory entries => inr (entries.*1)
  end.

(** The entry called [name], and the directory without it. *)
Fixpoint take_out (name : string) (entries : list (string * entry))
    : option (entry * list (string * entry)) :=
  match entries with
  | [] => None
  | (n, e) :: rest =>
      if bool_decide (n = name) then Some (e, rest)
      else '(found, rest') ← take_out name rest; Some (found, (n, e) :: rest')
  end.

(** [fs.unlinkSync(tempPath + '/' + name)]. *)
Definition unlinkSync (name : string) (t : at_temp) : fs_error + at_temp :=
  match t with
  | Missing => inl ENOENT
  | NotADirectory => inl ENOTDIR
  | Directory entries =>
      match take_out name entries with
      | None => inl ENOENT
      | Some (Subdirectory, _) => inl EISDIR
      | Some (RegularFile _, rest) => inr (Directory rest)
      end
  end.

Definition rmdirSync (t : at_temp) : fs_error + at_temp :=
  match t with
  | Missing => inl ENOENT
  | NotADirectory => inl ENOTDIR
  | Directory [] => inr Missing
  | Directory (_ :: _) => inl ENOTEMPTY
  end.

Definition mkdirSync (t : at_temp) : fs_error + at_temp :=
  match t with
  | Missing => inr (Directory [])
  | _ => inl EEXIST
  end.

(** [names.forEach(fname => fs.unlinkSync(...))]: stops at the first
    call that throws. *)
Fixpoint unlink_each (names : list string) (t : at_temp)
    : option fs_error * at_temp :=
  match names with
  | [] => (None, t)
  | name :: rest =>
      match unlinkSync name t with
      | inr t' => unlink_each rest t'
      | inl e => (Some e, t)
      end
  end.

(** The body of the [try]: the error it ends with, if any, and the
    state it leaves. *)
Definition clear (t : at_temp) : option fs_error * at_temp :=
  match readdirSync t with
  | inl e => (Some e, t)
  | inr names =>
      match unlink_each names t with
      | (Some e, t') => (Some e, t')
      | (None, t') =>
          match rmdirSync t' with
          | inr t'' => (None, t'')
          | inl e => (Some e, t')
          end
      end
  end.

(** What a call leaves behind: the state of [tempPath], whether
    ['work dir does not exist'] was printed, and the error that left
    the function, if one did. *)
Record outcome : Type := mkOutcome {
  left_at_temp : at_temp;
  printed : bool;
  thrown : option fs_error
}.

Definition setupWorkDirectory (t : at_temp) : outcome :=
  let '(caught, t1) := clear t in
  match mkdirSync t1 with
  | inr t2 => mkOutcome t2 (bool_decide (is_Some caught)) None
  | inl e => mkOutcome t1 (bool_decide (is_Some caught)) (Some e)
  end.

Definition is_file (ne : string * entry) : Prop :=
  match ne.2 with RegularFile _ => True | Subdirectory => False end.

#[global] Instance is_file_dec ne : Decision (is_file ne).
Proof. unfold is_file. destruct (ne.2); apply _. Defined.

End WorkDir.


(** ** More concrete runs *)
Module Samples.
Import Demo WorkDir.

(** A third session [c] closes while [a] and [b] hold both slots. *)
Definition third_closed : world :=
  after dispatched [EvConnection request1 "c"; EvMessage 2 gum_text; EvClose 2].
Definition third_pending : world := after third_closed [EvFinish 2].

(** Children 0 and 1 each report once. *)
Definition each_reports_once : list event :=
  two_sessions ++ [EvWorkerExit 0 (Some 0); EvWorkerError 1].

(** A caller behind two proxies, and one whose header ends in a comma. *)
Definition proxied : request :=
  mkRequest "/trace" None None (Some "10.0.0.1, 203.0.113.7") (Some "192.0.2.1").
Definition cut_short : request :=
  mkRequest "/trace" None None (Some "10.0.0.1,") (Some "192.0.2.1").

(** What a crashed run can leave in [temp]: two logs, or a log, a
    directory somebody made, and another log. *)
Definition two_logs : list (string * entry) :=
  [("id-1", RegularFile "{}"); ("id-2", RegularFile "{}")].
Definition with_directory : list (string * entry) :=
  [("id-1", RegularFile "{}"); ("old", Subdirectory); ("id-2", RegularFile "{}")].

End Samples.

(** * Proofs *)

Arguments file_of : simpl never.
Arguments line : simpl never.
Arguments meta : simpl never.
Arguments location_record : simpl never.
Arguments close_record : simpl never.

Ltac unfold_m :=
  unfold step, handle, run_tick, on_error, on_exit, on_worker_message,
    on_readFile, on_finish, on_close, on_location, on_connection,
    tempStream_write, read_tempStream, stream_write, fs_createWriteStream,
    Store_put, Database_put,
    enqueue, process, fork, q_push, q_shift, set_numProc, this_numProc,
    this_maxProc, console_log, emit, nextTick, Date_now, fs_unlink, when,
    mbind, M_bind, mret, M_ret, modify, get, throw, lift in *.

Ltac stepped :=
  eexists; split; [reflexivity|]; simpl;
  repeat split; rewrite <- ?app_assoc; try done; try lia.

Lemma file_of_inj id1 id2 : file_of id1 = file_of id2 → id1 = id2.
Proof. cbv [file_of tempPath String.append]. congruence. Qed.

Lemma string_app_nil_r (s : string) : s +:+ "" = s.
Proof.
  induction s as [|a s IH]; [done|].
  change (String a (s +:+ "") = String a s). by rewrite IH.
Qed.

Lemma string_app_assoc (s1 s2 s3 : string) :
  (s1 +:+ s2) +:+ s3 = s1 +:+ (s2 +:+ s3).
Proof.
  induction s1 as [|a s1 IH]; [done|].
  change (String a ((s1 +:+ s2) +:+ s3) = String a (s1 +:+ s2 +:+ s3)).
  by rewrite IH.
Qed.

Lemma alter_append_empty (p : string) (m : gmap string string) :
  alter (λ x, x +:+ "") p m = m.
Proof.
  apply map_eq. intros k. rewrite lookup_alter. case_decide; [|done].
  subst. destruct (m !! k); simpl; [|done]. by rewrite string_app_nil_r.
Qed.

Section Handlers.
Context `{Builtins}.

(** *** The worker's three events *)

Lemma step_worker_message w pid m id :
  workers w !! pid = Some id →
  ∃ w', step (EvWorkerMessage pid m) w = Some w'
    ∧ outbox w' = outbox w ++ [DatabasePut m]
    ∧ pq w' = pq w ∧ nextTicks w' = nextTicks w ∧ clock w' = clock w
    ∧ sessions w' = sessions w ∧ workers w' = workers w
    ∧ reads w' = reads w ∧ files w' = files w
    ∧ processed w' = processed w ∧ errored w' = errored w.
Proof. intros Hw. unfold_m. rewrite Hw. simpl. stepped. Qed.

Lemma step_worker_exit w pid code id :
  workers w !! pid = Some id →
  ∃ w', step (EvWorkerExit pid code) w = Some w'
    ∧ reads w' = reads w ++ [id]
    ∧ files w' = files w ∧ outbox w' = outbox w
    ∧ sessions w' = sessions w ∧ workers w' = workers w
    ∧ clock w' = clock w
    ∧ processed w' = processed w + (if bool_decide (code = Some 0) then 1 else 0)
    ∧ errored w' = errored w + (if bool_decide (code = Some 0) then 0 else 1)
    ∧ numProc (pq w') = Z.max 0 (numProc (pq w) - 1)
    ∧ q (pq w') = q (pq w)
    ∧ maxProc (pq w') = maxProc (pq w)
    ∧ nextTicks w' =
        nextTicks w ++
        (if bool_decide (Z.max 0 (numProc (pq w) - 1) < maxProc (pq w))
         then [TkProcess] else []).
Proof.
  intros Hw. unfold_m. rewrite Hw. simpl.
  destruct (bool_decide (code = Some 0)); simpl.
  all: destruct (bool_decide (Z.pred (numProc (pq w)) < 0)) eqn:E1; simpl.
  all: [> apply bool_decide_eq_true in E1 | apply bool_decide_eq_false in E1
        | apply bool_decide_eq_true in E1 | apply bool_decide_eq_false in E1 ].
  all: try (replace (Z.max 0 (numProc (pq w) - 1)) with 0 by lia).
  all: try (replace (Z.max 0 (numProc (pq w) - 1))
              with (Z.pred (numProc (pq w))) by lia).
  all: case_bool_decide; stepped.
  all: rewrite ?app_nil_r; done.
Qed.

Lemma step_readFile w i io_ok id :
  reads w !! i = Some id →
  ∃ w', step (EvReadFile i io_ok) w = Some w'
    ∧ reads w' = delete i (reads w)
    ∧ pq w' = pq w ∧ nextTicks w' = nextTicks w
    ∧ sessions w' = sessions w ∧ workers w' = workers w
    ∧ processed w' = processed w ∧ errored w' = errored w
    ∧ match (if io_ok then files w !! file_of id else None) with
      | Some data =>
          outbox w' = outbox w ++ [Unlink (file_of id); StorePut id data]
          ∧ files w' = delete (file_of id) (files w)
          ∧ console w' = console w
      | None =>
          outbox w' = outbox w
          ∧ files w' = files w
          ∧ console w' = console w ++ [LogCouldNotOpen id]
      end.
Proof.
  intros Hr. unfold_m. rewrite Hr. simpl.
  destruct (if io_ok then files w !! file_of id else None) as [data|];
    simpl; stepped.
Qed.

Lemma step_worker_error w pid id :
  workers w !! pid = Some id →
  ∃ w', step (EvWorkerError pid) w = Some w'
    ∧ q (pq w') = q (pq w) ++ [id]
    ∧ numProc (pq w') = numProc (pq w) - 1
    ∧ maxProc (pq w') = maxProc (pq w)
    ∧ nextTicks w' = nextTicks w
    ∧ workers w' = workers w ∧ outbox w' = outbox w
    ∧ sessions w' = sessions w ∧ reads w' = reads w ∧ files w' = files w
    ∧ console w' = console w ++ [LogRescheduling id (numProc (pq w) - 1)].
Proof. intros Hw. unfold_m. rewrite Hw. simpl. stepped. Qed.

(** *** [process], run from the tick queue *)

Lemma step_tick_process w rest :
  nextTicks w = TkProcess :: rest →
  ∃ w', step EvTick w = Some w'
    ∧ nextTicks w' = rest
    ∧ files w' = files w ∧ sessions w' = sessions w ∧ reads w' = reads w
    ∧ clock w' = clock w ∧ connected w' = connected w
    ∧ processed w' = processed w ∧ errored w' = errored w
    ∧ maxProc (pq w') = maxProc (pq w)
    ∧ store_puts (outbox w') = store_puts (outbox w)
    ∧ database_puts (outbox w') = database_puts (outbox w)
    ∧ match q (pq w) with
      | [] => pq w' = pq w ∧ workers w' = workers w ∧ outbox w' = outbox w
      | id :: others =>
          q (pq w') = others
          ∧ if bool_decide (id = "")
            then numProc (pq w') = numProc (pq w)
                 ∧ workers w' = workers w ∧ outbox w' = outbox w
            else numProc (pq w') = numProc (pq w) + 1
                 ∧ workers w' = workers w ++ [id]
                 ∧ outbox w' = outbox w ++ [Fork "extract.js" id]
      end.
Proof.
  intros Ht. unfold_m. rewrite Ht. simpl.
  destruct (pq w) as [m qs n] eqn:Epq. destruct qs as [|id others]; simpl.
  - stepped; rewrite Epq; done.
  - unfold falsy. case_bool_decide; simpl.
    + stepped; rewrite ?Epq; done.
    + case_bool_decide; stepped; rewrite ?Epq; simpl; try done; try lia.
      all: unfold store_puts, database_puts;
        rewrite omap_app; simpl; rewrite app_nil_r; done.
Qed.

(** *** The handlers of a connection *)

Lemma step_message w c msg s :
  sessions w !! c = Some s →
  ∃ w', step (EvMessage c msg) w = Some w'
    ∧ same_backend w w'
    ∧ sessions w' =
        (if JSON_parse msg is Some _
         then alter (set_numberOfEvents Z.succ) c (sessions w)
         else sessions w)
    ∧ files w' =
        (if tempStream s is Some path
         then alter (λ x, x +:+ event_chunk msg) path (files w)
         else files w).
Proof.
  intros Hs. unfold same_backend, event_chunk.
  unfold_m. rewrite Hs. simpl.
  unfold on_message, try_catch, JSON_parse_or_throw, obfuscate_in_place.
  unfold_m.
  destruct (JSON_parse msg) as [data|]; simpl.
  2:{ stepped. destruct (tempStream s); [|done]. by rewrite alter_append_empty. }
  destruct (index0 data) as [tag|e]; simpl.
  2:{ stepped. destruct (tempStream s); [|done]. by rewrite alter_append_empty. }
  destruct (is_getUserMedia tag); simpl.
  - rewrite list_lookup_alter_eq, Hs. simpl.
    destruct (tempStream s) as [path|]; simpl; stepped.
  - destruct (obfuscate data) as [data'|]; simpl.
    + rewrite list_lookup_alter_eq, Hs. simpl.
      destruct (tempStream s) as [path|]; simpl; stepped.
    + stepped. destruct (tempStream s); [|done]. by rewrite alter_append_empty.
Qed.

Lemma step_connection w r id :
  ∃ w', step (EvConnection r id) w = Some w'
    ∧ sessions w' = sessions w ++ [mkSession id 0 (Some (file_of id))]
    ∧ files w' = <[file_of id := line (meta r (clock w))]> (files w)
    ∧ nextTicks w' = nextTicks w ++ location_ticks (length (sessions w)) r
    ∧ pq w' = pq w ∧ clock w' = clock w ∧ workers w' = workers w
    ∧ reads w' = reads w ∧ outbox w' = outbox w
    ∧ connected w' = connected w + 1
    ∧ processed w' = processed w ∧ errored w' = errored w.
Proof.
  unfold location_ticks. unfold_m. simpl.
  rewrite lookup_app_r by lia. rewrite Nat.sub_diag. simpl.
  destruct (getRequestAddress r) as [a|]; simpl.
  1: destruct (truthy (Some a)); simpl.
  all: stepped; rewrite ?app_nil_r, ?alter_insert_eq; done.
Qed.

Lemma step_tick_location w c a rest :
  nextTicks w = TkLocation c a :: rest →
  ∃ w', step EvTick w = Some w'
    ∧ nextTicks w' = rest
    ∧ files w' =
        (if sessions w !! c ≫= tempStream is Some path
         then alter (λ x, x +:+ line (location_record (cityLookup_get a) (clock w)))
                path (files w)
         else files w)
    ∧ sessions w' = sessions w
    ∧ pq w' = pq w ∧ clock w' = clock w ∧ workers w' = workers w
    ∧ reads w' = reads w ∧ outbox w' = outbox w ∧ console w' = console w
    ∧ connected w' = connected w
    ∧ processed w' = processed w ∧ errored w' = errored w.
Proof.
  intros Ht. unfold_m. rewrite Ht. simpl.
  destruct (option_bind _ _ _ _) as [path|]; simpl; stepped.
Qed.

Lemma step_close w c s path :
  sessions w !! c = Some s →
  tempStream s = Some path →
  ∃ w', step (EvClose c) w = Some w'
    ∧ sessions w' = alter (set_tempStream None) c (sessions w)
    ∧ files w' =
        alter (λ x, x +:+ JSON_stringify (close_record (clock w))) path (files w)
    ∧ connected w' = connected w - 1
    ∧ pq w' = pq w ∧ nextTicks w' = nextTicks w ∧ clock w' = clock w
    ∧ workers w' = workers w ∧ reads w' = reads w ∧ outbox w' = outbox w
    ∧ console w' = console w
    ∧ processed w' = processed w ∧ errored w' = errored w.
Proof.
  intros Hs Hp. unfold_m. rewrite Hs. simpl. rewrite Hs. simpl. rewrite Hp.
  simpl. stepped.
Qed.

Lemma step_close_released w c s :
  sessions w !! c = Some s →
  tempStream s = None →
  step (EvClose c) w = None.
Proof.
  intros Hs Hp. unfold_m. rewrite Hs. simpl. rewrite Hs. simpl. rewrite Hp.
  done.
Qed.

Lemma step_finish w c s :
  sessions w !! c = Some s →
  ∃ w', step (EvFinish c) w = Some w'
    ∧ sessions w' = sessions w ∧ clock w' = clock w
    ∧ workers w' = workers w ∧ reads w' = reads w
    ∧ connected w' = connected w
    ∧ processed w' = processed w ∧ errored w' = errored w
    ∧ maxProc (pq w') = maxProc (pq w) ∧ numProc (pq w') = numProc (pq w)
    ∧ if bool_decide (numberOfEvents s > 0)
      then q (pq w') = q (pq w) ++ [clientid s]
           ∧ nextTicks w' =
               nextTicks w ++
               (if bool_decide (numProc (pq w) < maxProc (pq w))
                then [TkProcess] else [])
           ∧ files w' = files w ∧ outbox w' = outbox w
      else pq w' = pq w ∧ nextTicks w' = nextTicks w
           ∧ files w' = delete (file_of (clientid s)) (files w)
           ∧ outbox w' = outbox w ++ [Unlink (file_of (clientid s))].
Proof.
  intros Hs. unfold_m. rewrite Hs. simpl.
  case_bool_decide; simpl.
  - case_bool_decide; simpl; stepped; by rewrite ?app_nil_r.
  - stepped.
Qed.

(** *** Events that belong to someone else *)

Lemma step_absent_message w c msg :
  sessions w !! c = None → step (EvMessage c msg) w = Some w.
Proof. intros E. unfold_m. by rewrite E. Qed.
Lemma step_absent_close w c :
  sessions w !! c = None → step (EvClose c) w = Some w.
Proof. intros E. unfold_m. by rewrite E. Qed.
Lemma step_absent_finish w c :
  sessions w !! c = None → step (EvFinish c) w = Some w.
Proof. intros E. unfold_m. by rewrite E. Qed.
Lemma step_absent_exit w pid code :
  workers w !! pid = None → step (EvWorkerExit pid code) w = Some w.
Proof. intros E. unfold_m. by rewrite E. Qed.
Lemma step_absent_worker_message w pid m :
  workers w !! pid = None → step (EvWorkerMessage pid m) w = Some w.
Proof. intros E. unfold_m. by rewrite E. Qed.
Lemma step_absent_error w pid :
  workers w !! pid = None → step (EvWorkerError pid) w = Some w.
Proof. intros E. unfold_m. by rewrite E. Qed.
Lemma step_absent_read w i io_ok :
  reads w !! i = None → step (EvReadFile i io_ok) w = Some w.
Proof. intros E. unfold_m. by rewrite E. Qed.
Lemma step_idle_tick w :
  nextTicks w = [] → step EvTick w = Some w.
Proof. intros E. unfold_m. by rewrite E. Qed.
Lemma step_advance w t : step (EvAdvance t) w = Some (set_clock t w).
Proof. done. Qed.

Lemma others_apart_alter c id f c' l :
  (∀ s, clientid (f s) = clientid s) →
  (∀ s, tempStream (f s) = tempStream s ∨ tempStream (f s) = None) →
  others_apart c id l → others_apart c id (alter f c' l).
Proof.
  intros Hid Hts Hl c1 s1 Hne. rewrite list_lookup_alter.
  case_decide; [|by apply Hl]. subst c1.
  destruct (l !! c') as [s|] eqn:E; simpl; [|done]. intros [= <-].
  destruct (Hl c' s Hne E) as [? ?]. rewrite Hid. split; [done|].
  destruct (Hts s) as [-> | ->]; done.
Qed.

Lemma step_foreign c id ev w w' :
  apart c id w →
  foreign c id ev →
  step ev w = Some w' →
  apart c id w'
  ∧ sessions w' !! c = sessions w !! c
  ∧ files w' !! file_of id = files w !! file_of id.
Proof.
  intros [Hc Hss Hq Hws Hrs Hts] Hev Hstep.
  destruct ev as [t|r uuid|c' msg|c'|c'| |pid code|pid m|pid|i io_ok];
    simpl in Hev.
  - rewrite step_advance in Hstep. simplify_eq. by split.
  - destruct (step_connection w r uuid)
      as (w'' & Hw'' & Es & Ef & Et & Epq & _ & Ew & Er & _).
    simplify_eq. split; [split|split]; rewrite ?Es, ?Ef, ?Et, ?Epq, ?Ew, ?Er.
    + rewrite length_app. lia.
    + intros c1 s1 Hne. rewrite lookup_app_Some.
      intros [?|[? Hlast]]; [eauto|].
      apply list_lookup_singleton_Some in Hlast as [_ <-]. simpl.
      split; [done|]. intros ?%(inj Some)%file_of_inj. done.
    + done.
    + done.
    + done.
    + intros a [?|Hin]%elem_of_app; [by eapply Hts|].
      unfold location_ticks in Hin.
      destruct (getRequestAddress r); [|by apply elem_of_nil in Hin].
      destruct (truthy _); [|by apply elem_of_nil in Hin].
      apply list_elem_of_singleton in Hin. simplify_eq. lia.
    + by rewrite lookup_app_l.
    + rewrite lookup_insert_ne; [done|]. intros ?%file_of_inj. done.
  - destruct (sessions w !! c') as [s'|] eqn:Es'.
    2:{ rewrite step_absent_message in Hstep by done. simplify_eq. by split. }
    destruct (step_message w c' msg s' Es')
      as (w'' & Hw'' & (Epq & Et & _ & Ew & Er & _) & Es & Ef).
    simplify_eq. destruct (Hss c' s' Hev Es') as [_ Hpath].
    split; [split|split]; rewrite ?Es, ?Ef, ?Et, ?Epq, ?Ew, ?Er; try done.
    + destruct (JSON_parse msg); [|done]. by rewrite length_alter.
    + destruct (JSON_parse msg); [|done].
      apply others_apart_alter; [done| by left |done].
    + destruct (JSON_parse msg); [|done]. by rewrite list_lookup_alter_ne.
    + destruct (tempStream s') as [path|]; [|done].
      rewrite lookup_alter_ne; [done|]. congruence.
  - destruct (sessions w !! c') as [s'|] eqn:Es'.
    2:{ rewrite step_absent_close in Hstep by done. simplify_eq. by split. }
    destruct (tempStream s') as [path|] eqn:Ets.
    2:{ by rewrite (step_close_released w c' s') in Hstep. }
    destruct (step_close w c' s' path Es' Ets)
      as (w'' & Hw'' & Es & Ef & _ & Epq & Et & _ & Ew & Er & _).
    simplify_eq. destruct (Hss c' s' Hev Es') as [_ Hpath].
    split; [split|split]; rewrite ?Es, ?Ef, ?Et, ?Epq, ?Ew, ?Er; try done.
    + by rewrite length_alter.
    + apply others_apart_alter; [done| by right |done].
    + by rewrite list_lookup_alter_ne.
    + rewrite lookup_alter_ne; [done|]. congruence.
  - destruct (sessions w !! c') as [s'|] eqn:Es'.
    2:{ rewrite step_absent_finish in Hstep by done. simplify_eq. by split. }
    destruct (step_finish w c' s' Es')
      as (w'' & Hw'' & Es & _ & Ew & Er & _ & _ & _ & Em & En & Hcase).
    simplify_eq. destruct (Hss c' s' Hev Es') as [Hid _].
    case_bool_decide.
    + destruct Hcase as (Eq & Et & Ef & _).
      split; [split|split]; rewrite ?Es, ?Ef, ?Et, ?Eq, ?Ew, ?Er; try done.
      * rewrite not_elem_of_app, not_elem_of_cons. split_and!; try done.
      all: apply not_elem_of_nil.
      * intros a [?|Hin]%elem_of_app; [by eapply Hts|].
        case_bool_decide; [|by apply elem_of_nil in Hin].
        by apply list_elem_of_singleton in Hin.
    + destruct Hcase as (Epq & Et & Ef & _).
      split; [split|split]; rewrite ?Es, ?Ef, ?Et, ?Epq, ?Ew, ?Er; try done.
      rewrite lookup_delete_ne; [done|]. intros ?%file_of_inj. done.
  - destruct (nextTicks w) as [|[|c' a] rest] eqn:Eticks.
    + rewrite step_idle_tick in Hstep by done. simplify_eq.
      split; [split|split]; rewrite ?Eticks; done.
    + destruct (step_tick_process w rest Eticks)
        as (w'' & Hw'' & Et & Ef & Es & Er & _ & _ & _ & _ & _ & _ & _ & Hcase).
      simplify_eq.
      assert ((id ∉ q (pq w')) ∧ (id ∉ workers w')) as [??].
      { destruct (q (pq w)) as [|id' others] eqn:Eq.
        - destruct Hcase as (-> & -> & _). by rewrite Eq.
        - destruct Hcase as (-> & Hcase).
          apply not_elem_of_cons in Hq as [??].
          case_bool_decide; destruct Hcase as (_ & -> & _); [done|].
          rewrite not_elem_of_app, not_elem_of_cons. split_and!; try done.
      all: apply not_elem_of_nil. }
      split; [split|split]; rewrite ?Es, ?Ef, ?Et, ?Er; try done.
      intros a Hin. apply (Hts a). by right.
    + assert (c' ≠ c).
      { intros ->. apply (Hts a). by left. }
      destruct (step_tick_location w c' a rest Eticks)
        as (w'' & Hw'' & Et & Ef & Es & Epq & _ & Ew & Er & _).
      simplify_eq.
      split; [split|split]; rewrite ?Es, ?Ef, ?Et, ?Epq, ?Ew, ?Er; try done.
      * intros a' Hin. apply (Hts a'). by right.
      * destruct (sessions w !! c') as [s'|] eqn:Es'; simpl; [|done].
        assert (c' ≠ c) as Hne by done.
        destruct (Hss c' s' Hne Es') as [_ Hpath].
        destruct (tempStream s') as [path|]; [|done].
        rewrite lookup_alter_ne; [done|]. congruence.
  - destruct (workers w !! pid) as [id'|] eqn:Ew'.
    2:{ rewrite step_absent_exit in Hstep by done. simplify_eq. by split. }
    destruct (step_worker_exit w pid code id' Ew')
      as (w'' & Hw'' & Er & Ef & _ & Es & Ew & _ & _ & _ & _ & Eq & _ & Et).
    simplify_eq.
    assert (id' ≠ id).
    { intros ->. apply Hws. by eapply list_elem_of_lookup_2. }
    split; [split|split]; rewrite ?Es, ?Ef, ?Et, ?Eq, ?Ew, ?Er; try done.
    + rewrite not_elem_of_app, not_elem_of_cons. split_and!; try done.
      all: apply not_elem_of_nil.
    + intros a [?|Hin]%elem_of_app; [by eapply Hts|].
      case_bool_decide; [|by apply elem_of_nil in Hin].
        by apply list_elem_of_singleton in Hin.
  - destruct (workers w !! pid) as [id'|] eqn:Ew'.
    2:{ rewrite step_absent_worker_message in Hstep by done.
        simplify_eq. by split. }
    destruct (step_worker_message w pid m id' Ew')
      as (w'' & Hw'' & _ & Epq & Et & _ & Es & Ew & Er & Ef & _).
    simplify_eq.
    split; [split|split]; rewrite ?Es, ?Ef, ?Et, ?Epq, ?Ew, ?Er; done.
  - destruct (workers w !! pid) as [id'|] eqn:Ew'.
    2:{ rewrite step_absent_error in Hstep by done. simplify_eq. by split. }
    destruct (step_worker_error w pid id' Ew')
      as (w'' & Hw'' & Eq & _ & _ & Et & Ew & _ & Es & Er & Ef & _).
    simplify_eq.
    assert (id' ≠ id).
    { intros ->. apply Hws. by eapply list_elem_of_lookup_2. }
    split; [split|split]; rewrite ?Es, ?Ef, ?Et, ?Eq, ?Ew, ?Er; try done.
    rewrite not_elem_of_app, not_elem_of_cons. split_and!; try done.
      all: apply not_elem_of_nil.
  - destruct (reads w !! i) as [id'|] eqn:Er'.
    2:{ rewrite step_absent_read in Hstep by done. simplify_eq. by split. }
    destruct (step_readFile w i io_ok id' Er')
      as (w'' & Hw'' & Er & Epq & Et & Es & Ew & _ & _ & Hcase).
    simplify_eq.
    assert (id' ≠ id).
    { intros ->. apply Hrs. by eapply list_elem_of_lookup_2. }
    assert (files w' !! file_of id = files w !! file_of id).
    { destruct (if io_ok then _ else _); destruct Hcase as (_ & -> & _);
        [|done].
      rewrite lookup_delete_ne; [done|]. intros ?%file_of_inj. done. }
    split; [split|split]; rewrite ?Es, ?Et, ?Epq, ?Ew, ?Er; try done.
    intros Hin. apply Hrs. by eapply list_elem_of_delete_inv.
Qed.

(** *** Turns of the loop *)

Lemma step_tick_pops w :
  ∃ w', step EvTick w = Some w' ∧ nextTicks w' = tail (nextTicks w).
Proof.
  destruct (nextTicks w) as [|[|c a] rest] eqn:Et.
  - rewrite step_idle_tick by done. eauto.
  - destruct (step_tick_process w rest Et) as (w' & -> & ? & _). eauto.
  - destruct (step_tick_location w c a rest Et) as (w' & -> & ? & _). eauto.
Qed.

Lemma drain_empties fuel w :
  (length (nextTicks w) ≤ fuel)%nat →
  ∃ w', drain fuel w = Some w' ∧ nextTicks w' = [].
Proof.
  revert w. induction fuel as [|fuel IH]; intros w Hlen; simpl.
  - destruct (nextTicks w) eqn:Et; [eauto|simpl in Hlen; lia].
  - destruct (nextTicks w) as [|t rest] eqn:Et; [eauto|].
    destruct (step_tick_pops w) as (w1 & -> & Et1).
    apply IH. rewrite Et1, Et. simpl in *. lia.
Qed.

Lemma drain_quiet fuel w : nextTicks w = [] → drain fuel w = Some w.
Proof. intros E. destruct fuel; simpl; by rewrite E. Qed.

Lemma drain_foreign c id fuel w w' :
  apart c id w →
  drain fuel w = Some w' →
  apart c id w'
  ∧ sessions w' !! c = sessions w !! c
  ∧ files w' !! file_of id = files w !! file_of id.
Proof.
  revert w. induction fuel as [|fuel IH]; intros w Hw Hd; simpl in Hd.
  - destruct (nextTicks w); by simplify_eq.
  - destruct (nextTicks w) eqn:Et; [by simplify_eq|].
    destruct (step EvTick w) as [w1|] eqn:E1; [|done].
    destruct (step_foreign c id EvTick w w1) as (? & Es & Ef); [done..|].
    destruct (IH w1) as (? & Es' & Ef'); [done..|].
    by rewrite Es', Ef'.
Qed.

Lemma turn_quiescent ev w w' : turn ev w = Some w' → nextTicks w' = [].
Proof.
  unfold turn. destruct (step ev w) as [w1|]; simpl; [|done].
  destruct (drain_empties (length (nextTicks w1)) w1) as (w2 & -> & ?);
    [done|]. by intros [= <-].
Qed.

Lemma turns_quiescent evs w w' :
  nextTicks w = [] → turns evs w = Some w' → nextTicks w' = [].
Proof.
  revert w. induction evs as [|ev evs IH]; intros w Hq Ht; simpl in Ht.
  - by simplify_eq.
  - destruct (turn ev w) as [w1|] eqn:E1; [|done].
    eapply IH; [|done]. by eapply turn_quiescent.
Qed.

Lemma turn_foreign c id ev w w' :
  apart c id w →
  foreign c id ev →
  turn ev w = Some w' →
  apart c id w'
  ∧ sessions w' !! c = sessions w !! c
  ∧ files w' !! file_of id = files w !! file_of id.
Proof.
  intros Hw Hev Ht. unfold turn in Ht.
  destruct (step ev w) as [w1|] eqn:E1; simpl in Ht; [|done].
  destruct (step_foreign c id ev w w1) as (? & Es & Ef); [done..|].
  destruct (drain_foreign c id (length (nextTicks w1)) w1 w')
    as (? & Es' & Ef'); [done..|].
  by rewrite Es', Ef'.
Qed.


Lemma messages_of_cons_foreign c id ev evs :
  foreign c id ev → messages_of c (ev :: evs) = messages_of c evs.
Proof.
  unfold messages_of. destruct ev; simpl; try done.
  intros ?. by rewrite decide_False.
Qed.

Lemma messages_of_cons_own c msg evs :
  messages_of c (EvMessage c msg :: evs) = msg :: messages_of c evs.
Proof. unfold messages_of. simpl. by rewrite decide_True. Qed.

Lemma parsed_count_cons msg msgs :
  parsed_count (msg :: msgs) =
  (if JSON_parse msg is Some _ then 1 else 0) + parsed_count msgs.
Proof.
  unfold parsed_count. rewrite filter_cons.
  destruct (JSON_parse msg) eqn:E.
  - rewrite decide_True by eauto. simpl. lia.
  - rewrite decide_False; [lia|]. by intros [??].
Qed.

Lemma parsed_count_nonneg msgs : 0 ≤ parsed_count msgs.
Proof. unfold parsed_count. lia. Qed.



Lemma drain_S fuel w t rest :
  nextTicks w = t :: rest → drain (S fuel) w = step EvTick w ≫= drain fuel.
Proof. intros E. simpl. rewrite E. by destruct (step EvTick w). Qed.

Lemma turn_connection w r id :
  let c := length (sessions w) in
  nextTicks w = [] →
  fresh id w →
  ∃ w', turn (EvConnection r id) w = Some w'
    ∧ apart c id w'
    ∧ nextTicks w' = []
    ∧ sessions w' !! c = Some (mkSession id 0 (Some (file_of id)))
    ∧ files w' !! file_of id =
        Some (written (line (meta r (clock w)) :: location_chunks r (clock w)))
    ∧ clock w' = clock w ∧ pq w' = pq w ∧ workers w' = workers w.
Proof.
  intros c Hquiet (Hss & Hq & Hws & Hrs). unfold turn.
  destruct (step_connection w r id)
    as (w1 & -> & Es & Ef & Et & Epq & Ec & Ew & Er & _).
  simpl. rewrite Hquiet in Et. simpl in Et.
  assert (sessions w1 !! c = Some (mkSession id 0 (Some (file_of id)))) as Hc.
  { rewrite Es. by rewrite list_lookup_middle. }
  assert (others_apart c id (sessions w1)) as Hothers.
  { intros c' s' Hne. rewrite Es, lookup_app_Some.
    intros [Hin|[? Hlast]]; [by eapply Hss, list_elem_of_lookup_2|].
    apply list_lookup_singleton_Some in Hlast as [? _]. subst c. lia. }
  assert ((c < length (sessions w1))%nat) as Hlen.
  { rewrite Es, length_app. simpl. subst c. lia. }
  unfold location_ticks, location_chunks in *.
  destruct (getRequestAddress r) as [a|]; [destruct (truthy (Some a))|].
  - rewrite Et. simpl length. rewrite (drain_S _ _ _ _ Et).
    destruct (step_tick_location w1 c a [] Et)
      as (w2 & -> & Et2 & Ef2 & Es2 & Epq2 & Ec2 & Ew2 & Er2 & _).
    simpl. rewrite Et2. eexists; split; [done|].
    rewrite Hc in Ef2. simpl in Ef2.
    split; [split|]; rewrite ?Es2, ?Et2, ?Epq2, ?Ew2, ?Er2, ?Epq, ?Ew, ?Er;
      try done.
    + intros ?. apply not_elem_of_nil.
    + split_and!; try done; try congruence.
      rewrite Ef2, Ef, lookup_alter_eq, lookup_insert_eq. simpl.
      unfold written. simpl. by rewrite Ec, string_app_nil_r.
  - rewrite drain_quiet by done. eexists; split; [done|].
    split; [split|]; rewrite ?Et, ?Epq, ?Ew, ?Er; try done.
    + intros ?. apply not_elem_of_nil.
    + split_and!; try done.
      rewrite Ef, lookup_insert_eq. unfold written. simpl.
      by rewrite string_app_nil_r.
  - rewrite drain_quiet by done. eexists; split; [done|].
    split; [split|]; rewrite ?Et, ?Epq, ?Ew, ?Er; try done.
    + intros ?. apply not_elem_of_nil.
    + split_and!; try done.
      rewrite Ef, lookup_insert_eq. unfold written. simpl.
      by rewrite string_app_nil_r.
Qed.


(** *** The event counter *)

Lemma parsed_count_messages_cons c ev evs :
  parsed_count (messages_of c (ev :: evs)) =
  counted c ev + parsed_count (messages_of c evs).
Proof.
  destruct ev as [t|r uuid|c' msg|c'|c'| |pid code|pid m|pid|i io_ok];
    try (change (messages_of c (_ :: evs)) with (messages_of c evs);
         simpl; lia).
  unfold counted. case_decide; subst.
  - by rewrite messages_of_cons_own, parsed_count_cons.
  - by rewrite (messages_of_cons_foreign c "").
Qed.

Lemma step_counter c ev w w' s :
  sessions w !! c = Some s →
  step ev w = Some w' →
  ∃ s', sessions w' !! c = Some s'
    ∧ numberOfEvents s' = numberOfEvents s + counted c ev.
Proof.
  intros Hs Hstep.
  destruct ev as [t|r uuid|c' msg|c'|c'| |pid code|pid m|pid|i io_ok]; simpl.
  - rewrite step_advance in Hstep. simplify_eq. exists s. split; [done|lia].
  - destruct (step_connection w r uuid) as (w'' & Hw'' & Es & _).
    simplify_eq. exists s. rewrite Es, lookup_app_l
      by (by eapply lookup_lt_Some). split; [done|lia].
  - destruct (sessions w !! c') as [s'|] eqn:Es'.
    2:{ rewrite step_absent_message in Hstep by done. simplify_eq.
        exists s. split; [done|]. case_decide; [congruence|lia]. }
    destruct (step_message w c' msg s' Es') as (w'' & Hw'' & _ & Es & _).
    simplify_eq. rewrite Es.
    destruct (JSON_parse msg).
    + rewrite list_lookup_alter. case_decide; subst.
      * rewrite Hs. simpl. eexists; split; [done|]. simpl. lia.
      * exists s. split; [done|lia].
    + exists s. split; [done|]. case_decide; lia.
  - destruct (sessions w !! c') as [s'|] eqn:Es'.
    2:{ rewrite step_absent_close in Hstep by done. simplify_eq.
        exists s. split; [done|lia]. }
    destruct (tempStream s') as [path|] eqn:Ets.
    2:{ by rewrite (step_close_released w c' s') in Hstep. }
    destruct (step_close w c' s' path Es' Ets) as (w'' & Hw'' & Es & _).
    simplify_eq. rewrite Es, list_lookup_alter. case_decide; subst.
    + rewrite Hs. simpl. eexists; split; [done|]. simpl. lia.
    + exists s. split; [done|lia].
  - destruct (sessions w !! c') as [s'|] eqn:Es'.
    2:{ rewrite step_absent_finish in Hstep by done. simplify_eq.
        exists s. split; [done|lia]. }
    destruct (step_finish w c' s' Es') as (w'' & Hw'' & Es & _).
    simplify_eq. exists s. rewrite Es. split; [done|lia].
  - destruct (nextTicks w) as [|[|c' a] rest] eqn:Eticks.
    + rewrite step_idle_tick in Hstep by done. simplify_eq.
      exists s. split; [done|lia].
    + destruct (step_tick_process w rest Eticks)
        as (w'' & Hw'' & _ & _ & Es & _).
      simplify_eq. exists s. rewrite Es. split; [done|lia].
    + destruct (step_tick_location w c' a rest Eticks)
        as (w'' & Hw'' & _ & _ & Es & _).
      simplify_eq. exists s. rewrite Es. split; [done|lia].
  - destruct (workers w !! pid) as [id'|] eqn:Ew'.
    2:{ rewrite step_absent_exit in Hstep by done. simplify_eq.
        exists s. split; [done|lia]. }
    destruct (step_worker_exit w pid code id' Ew')
      as (w'' & Hw'' & _ & _ & _ & Es & _).
    simplify_eq. exists s. rewrite Es. split; [done|lia].
  - destruct (workers w !! pid) as [id'|] eqn:Ew'.
    2:{ rewrite step_absent_worker_message in Hstep by done. simplify_eq.
        exists s. split; [done|lia]. }
    destruct (step_worker_message w pid m id' Ew')
      as (w'' & Hw'' & _ & _ & _ & _ & Es & _).
    simplify_eq. exists s. rewrite Es. split; [done|lia].
  - destruct (workers w !! pid) as [id'|] eqn:Ew'.
    2:{ rewrite step_absent_error in Hstep by done. simplify_eq.
        exists s. split; [done|lia]. }
    destruct (step_worker_error w pid id' Ew')
      as (w'' & Hw'' & _ & _ & _ & _ & _ & _ & Es & _).
    simplify_eq. exists s. rewrite Es. split; [done|lia].
  - destruct (reads w !! i) as [id'|] eqn:Er'.
    2:{ rewrite step_absent_read in Hstep by done. simplify_eq.
        exists s. split; [done|lia]. }
    destruct (step_readFile w i io_ok id' Er')
      as (w'' & Hw'' & _ & _ & _ & Es & _).
    simplify_eq. exists s. rewrite Es. split; [done|lia].
Qed.

Lemma drain_counter c fuel w w' s :
  sessions w !! c = Some s →
  drain fuel w = Some w' →
  ∃ s', sessions w' !! c = Some s' ∧ numberOfEvents s' = numberOfEvents s.
Proof.
  revert w s. induction fuel as [|fuel IH]; intros w s Hs Hd; simpl in Hd.
  - destruct (nextTicks w); simplify_eq; eauto.
  - destruct (nextTicks w) eqn:Et; [simplify_eq; eauto|].
    destruct (step EvTick w) as [w1|] eqn:E1; [|done].
    destruct (step_counter c EvTick w w1 s) as (s1 & Hs1 & E); [done..|].
    destruct (IH w1 s1) as (s' & ? & ?); [done..|].
    exists s'. split; [done|]. simpl in E. lia.
Qed.

Lemma turns_counter c evs w w' s :
  sessions w !! c = Some s →
  turns evs w = Some w' →
  ∃ s', sessions w' !! c = Some s'
    ∧ numberOfEvents s' = numberOfEvents s + parsed_count (messages_of c evs).
Proof.
  revert w s. induction evs as [|ev evs IH]; intros w s Hs Ht; simpl in Ht.
  - simplify_eq. exists s. split; [done|]. unfold parsed_count. simpl. lia.
  - destruct (turn ev w) as [w1|] eqn:E1; [|done]. unfold turn in E1.
    destruct (step ev w) as [w0|] eqn:E0; simpl in E1; [|done].
    destruct (step_counter c ev w w0 s) as (s0 & Hs0 & En0); [done..|].
    destruct (drain_counter c (length (nextTicks w0)) w0 w1 s0)
      as (s1 & Hs1 & En1); [done..|].
    destruct (IH w1 s1) as (s' & Hs' & En'); [done..|].
    exists s'. split; [done|]. rewrite En', En1, En0.
    rewrite parsed_count_messages_cons. lia.
Qed.

(** *** A connection from handshake to close *)



Lemma turns_foreign c id evs w w' :
  Forall (foreign c id) evs →
  apart c id w →
  turns evs w = Some w' →
  apart c id w'
  ∧ sessions w' !! c = sessions w !! c
  ∧ files w' !! file_of id = files w !! file_of id.
Proof.
  intros Hevs. revert w.
  induction Hevs as [|ev evs Hev _ IH]; intros w Hw Ht; simpl in Ht.
  - by simplify_eq.
  - destruct (turn ev w) as [w1|] eqn:E1; [|done].
    destruct (turn_foreign c id ev w w1) as (? & Es & Ef); [done..|].
    destruct (IH w1) as (? & Es' & Ef'); [done..|].
    by rewrite Es', Ef'.
Qed.


(** *** Remaining facts about single handlers *)

(** The [switch] takes a labelled case exactly for the six tags. *)
Lemma is_getUserMedia_spec tag :
  is_getUserMedia tag = true ↔ ∃ t, tag = Some (JStr t) ∧ t ∈ getUserMedia_tags.
Proof.
  unfold is_getUserMedia. split.
  - destruct tag as [[]|]; try done. intros ?%bool_decide_eq_true. eauto.
  - intros (t & -> & ?). by apply bool_decide_eq_true.
Qed.

(** The ['message'] handler never lets an exception out, whatever the
    text and whatever the state of the connection. *)
Lemma message_never_throws w c msg : is_Some (step (EvMessage c msg) w).
Proof.
  destruct (sessions w !! c) as [s|] eqn:Es.
  - destruct (step_message w c msg s Es) as (w' & -> & _). eauto.
  - rewrite step_absent_message by done. eauto.
Qed.

(** At most one location record is written per connection. *)
Lemma location_chunks_at_most_one r now :
  (length (location_chunks r now) ≤ 1)%nat.
Proof.
  unfold location_chunks.
  destruct (getRequestAddress r); [destruct (truthy _)|]; simpl; lia.
Qed.

(** After ['close'] the variable [tempStream] holds [null]. *)
Lemma close_releases_handle w c s w' :
  sessions w !! c = Some s →
  step (EvClose c) w = Some w' →
  ∃ s', sessions w' !! c = Some s' ∧ tempStream s' = None.
Proof.
  intros Hs Hstep. destruct (tempStream s) as [path|] eqn:Ets.
  2:{ by rewrite (step_close_released w c s) in Hstep. }
  destruct (step_close w c s path Hs Ets) as (w'' & Hw'' & Es & _).
  simplify_eq. rewrite Es, list_lookup_alter_eq, Hs. simpl. eauto.
Qed.






(** *** The in-flight counter against the capacity *)
Lemma drain_without_process fuel w w' :
  TkProcess ∉ nextTicks w →
  drain fuel w = Some w' →
  pq w' = pq w.
Proof.
  revert w. induction fuel as [|fuel IH]; intros w Hno Hd; simpl in Hd.
  - destruct (nextTicks w); by simplify_eq.
  - destruct (nextTicks w) as [|[|c a] rest] eqn:Et; [by simplify_eq| |].
    + exfalso. apply Hno. by left.
    + destruct (step_tick_location w c a rest Et)
        as (w1 & E1 & Et1 & _ & _ & Epq & _).
      rewrite E1 in Hd. rewrite <- Epq. apply IH; [|done].
      rewrite Et1. intros Hin. apply Hno. by right.
Qed.

Lemma drain_one_process w :
  nextTicks w = [TkProcess] →
  ∃ w', drain 1 w = Some w'
    ∧ maxProc (pq w') = maxProc (pq w)
    ∧ numProc (pq w) ≤ numProc (pq w') ≤ numProc (pq w) + 1.
Proof.
  intros Et. rewrite (drain_S _ _ _ _ Et).
  destruct (step_tick_process w [] Et)
    as (w' & -> & Et' & _ & _ & _ & _ & _ & _ & _ & Em & _ & _ & Hcase).
  simpl. rewrite Et'. exists w'. split; [done|]. split; [done|].
  destruct (q (pq w)) as [|id others].
  - destruct Hcase as (-> & _). lia.
  - destruct Hcase as (_ & Hcase).
    case_bool_decide; destruct Hcase as (-> & _); lia.
Qed.

Lemma turn_within_capacity ev w w' :
  nextTicks w = [] →
  0 ≤ maxProc (pq w) →
  numProc (pq w) ≤ maxProc (pq w) →
  turn ev w = Some w' →
  maxProc (pq w') = maxProc (pq w) ∧ numProc (pq w') ≤ maxProc (pq w').
Proof.
  intros Hq Hcap Hn Ht. unfold turn in Ht.
  destruct (step ev w) as [w1|] eqn:Hstep; simpl in Ht; [|done].
  destruct ev as [t|r uuid|c msg|c|c| |pid code|pid m|pid|i io_ok].
  - rewrite step_advance in Hstep. simplify_eq.
    rewrite drain_quiet in Ht by done. by simplify_eq.
  - destruct (step_connection w r uuid)
      as (w'' & Hw'' & _ & _ & Et & Epq & _).
    simplify_eq.
    assert (TkProcess ∉ nextTicks w1) as Hno.
    { rewrite Et, Hq. simpl. unfold location_ticks.
      destruct (getRequestAddress r); [destruct (truthy _)|];
        rewrite ?not_elem_of_cons; split_and?; try done;
        apply not_elem_of_nil. }
    by rewrite (drain_without_process _ _ _ Hno Ht), Epq.
  - destruct (sessions w !! c) as [s|] eqn:Es.
    2:{ rewrite step_absent_message in Hstep by done. simplify_eq.
        rewrite drain_quiet in Ht by done. by simplify_eq. }
    destruct (step_message w c msg s Es) as (w'' & Hw'' & (Epq & Et & _) & _).
    simplify_eq. rewrite drain_quiet in Ht by congruence. simplify_eq.
    by rewrite Epq.
  - destruct (sessions w !! c) as [s|] eqn:Es.
    2:{ rewrite step_absent_close in Hstep by done. simplify_eq.
        rewrite drain_quiet in Ht by done. by simplify_eq. }
    destruct (tempStream s) as [path|] eqn:Ets.
    2:{ by rewrite (step_close_released w c s) in Hstep. }
    destruct (step_close w c s path Es Ets)
      as (w'' & Hw'' & _ & _ & _ & Epq & Et & _).
    simplify_eq. rewrite drain_quiet in Ht by congruence. simplify_eq.
    by rewrite Epq.
  - destruct (sessions w !! c) as [s|] eqn:Es.
    2:{ rewrite step_absent_finish in Hstep by done. simplify_eq.
        rewrite drain_quiet in Ht by done. by simplify_eq. }
    destruct (step_finish w c s Es)
      as (w'' & Hw'' & _ & _ & _ & _ & _ & _ & _ & Em & En & Hcase).
    simplify_eq. case_bool_decide.
    + destruct Hcase as (_ & Et & _). rewrite Hq in Et. simpl in Et.
      case_bool_decide.
      * rewrite Et in Ht. simpl length in Ht.
        destruct (drain_one_process w1 Et) as (w2 & E2 & Em2 & En2).
        simplify_eq. lia.
      * rewrite drain_quiet in Ht by done. simplify_eq. lia.
    + destruct Hcase as (Epq & Et & _).
      rewrite drain_quiet in Ht by congruence. simplify_eq. by rewrite Epq.
  - rewrite step_idle_tick in Hstep by done. simplify_eq.
    rewrite drain_quiet in Ht by done. by simplify_eq.
  - destruct (workers w !! pid) as [id|] eqn:Ew.
    2:{ rewrite step_absent_exit in Hstep by done. simplify_eq.
        rewrite drain_quiet in Ht by done. by simplify_eq. }
    destruct (step_worker_exit w pid code id Ew)
      as (w'' & Hw'' & _ & _ & _ & _ & _ & _ & _ & _ & En & _ & Em & Et).
    simplify_eq. rewrite Hq in Et. simpl in Et. case_bool_decide.
    + rewrite Et in Ht. simpl length in Ht.
      destruct (drain_one_process w1 Et) as (w2 & E2 & Em2 & En2).
      simplify_eq. lia.
    + rewrite drain_quiet in Ht by done. simplify_eq. lia.
  - destruct (workers w !! pid) as [id|] eqn:Ew.
    2:{ rewrite step_absent_worker_message in Hstep by done. simplify_eq.
        rewrite drain_quiet in Ht by done. by simplify_eq. }
    destruct (step_worker_message w pid m id Ew)
      as (w'' & Hw'' & _ & Epq & Et & _).
    simplify_eq. rewrite drain_quiet in Ht by congruence. simplify_eq.
    by rewrite Epq.
  - destruct (workers w !! pid) as [id|] eqn:Ew.
    2:{ rewrite step_absent_error in Hstep by done. simplify_eq.
        rewrite drain_quiet in Ht by done. by simplify_eq. }
    destruct (step_worker_error w pid id Ew)
      as (w'' & Hw'' & _ & En & Em & Et & _).
    simplify_eq. rewrite drain_quiet in Ht by congruence. simplify_eq. lia.
  - destruct (reads w !! i) as [id|] eqn:Er.
    2:{ rewrite step_absent_read in Hstep by done. simplify_eq.
        rewrite drain_quiet in Ht by done. by simplify_eq. }
    destruct (step_readFile w i io_ok id Er)
      as (w'' & Hw'' & _ & Epq & Et & _).
    simplify_eq. rewrite drain_quiet in Ht by congruence. simplify_eq.
    by rewrite Epq.
Qed.

(** The exit handler leaves the counter at zero or above, whatever it
    was before. *)
Lemma exit_clamps_at_zero w pid code id :
  workers w !! pid = Some id →
  ∃ w', step (EvWorkerExit pid code) w = Some w' ∧ 0 ≤ numProc (pq w').
Proof.
  intros Hw.
  destruct (step_worker_exit w pid code id Hw)
    as (w' & E & _ & _ & _ & _ & _ & _ & _ & _ & En & _).
  exists w'. split; [done|]. lia.
Qed.

(** The error handler does not: it takes one off, at zero too. *)
Lemma error_does_not_clamp w pid id :
  workers w !! pid = Some id →
  numProc (pq w) = 0 →
  ∃ w', step (EvWorkerError pid) w = Some w' ∧ numProc (pq w') = -1.
Proof.
  intros Hw Hn.
  destruct (step_worker_error w pid id Hw) as (w' & E & _ & En & _).
  exists w'. split; [done|]. lia.
Qed.

(** With ticks run as Node runs them, the counter never exceeds the
    capacity the queue was built with. *)
Lemma numProc_at_most_maxProc cpus evs w :
  0 ≤ cpus →
  turns evs (initial cpus) = Some w →
  maxProc (pq w) = cpus ∧ numProc (pq w) ≤ cpus.
Proof.
  intros Hcpus.
  assert (∀ w0, nextTicks w0 = [] → maxProc (pq w0) = cpus →
                numProc (pq w0) ≤ cpus → turns evs w0 = Some w →
                maxProc (pq w) = cpus ∧ numProc (pq w) ≤ cpus) as Hgen.
  { induction evs as [|ev evs IH]; intros w0 Hq Hm Hn Ht; simpl in Ht.
    - by simplify_eq.
    - destruct (turn ev w0) as [w1|] eqn:E1; [|done].
      destruct (turn_within_capacity ev w0 w1) as [Hm1 Hn1];
        [done|lia|lia|done|].
      apply (IH w1); [by eapply turn_quiescent|lia|lia|done]. }
  intros Ht. by apply (Hgen (initial cpus)).
Qed.

End Handlers.

(** * The claims *)

Section Claims.
Context `{Builtins}.



(** Claim C4.  A message that parses and whose [data[0]] can be read
    is appended as [JSON.stringify(data)] and a newline, with [data]
    untouched, when its tag is one of the six tags ["getUserMedia"],
    ["getUserMediaOnSuccess"], ["getUserMediaOnFailure"] and the same
    three under ["navigator.mediaDevices."]; for every other tag
    [obfuscate] is applied first and what it leaves in [data] is
    appended. *)
Theorem C4_allow_list_bypasses_redaction w c s path msg data tag :
  let allow :=
    [ "getUserMedia"; "getUserMediaOnSuccess"; "getUserMediaOnFailure";
      "navigator.mediaDevices.getUserMedia";
      "navigator.mediaDevices.getUserMediaOnSuccess";
      "navigator.mediaDevices.getUserMediaOnFailure" ] in
  let record v := JSON_stringify v +:+ String (ascii_of_nat 10) "" in
  sessions w !! c = Some s →
  tempStream s = Some path →
  JSON_parse msg = Some data →
  index0 data = Ret tag →
  ∃ w', step (EvMessage c msg) w = Some w'
    ∧ ((∃ t, tag = Some (JStr t) ∧ t ∈ allow) →
       files w' = alter (λ x, x +:+ record data) path (files w))
    ∧ (¬ (∃ t, tag = Some (JStr t) ∧ t ∈ allow) →
       ∀ data', obfuscate data = Some data' →
       files w' = alter (λ x, x +:+ record data') path (files w)).
Proof.
  intros allow record Hs Hp Hparse Htag.
  destruct (step_message w c msg s Hs) as (w' & E & _ & _ & Ef).
  exists w'. split; [done|]. rewrite Hp in Ef. unfold event_chunk in Ef.
  rewrite Hparse, Htag in Ef.
  split.
  - intros Hin.
    assert (is_getUserMedia tag = true) as E' by (by apply is_getUserMedia_spec).
    by rewrite E' in Ef.
  - intros Hout data' Hob.
    destruct (is_getUserMedia tag) eqn:E'.
    + exfalso. apply Hout. by apply is_getUserMedia_spec.
    + by rewrite Hob in Ef.
Qed.


(** Claim C6.  The ['error'] handler of a worker appends its
    identifier once, at the tail of the queue, queues no tick and
    forks nothing; with an empty tick queue the whole turn ends in
    that same state. *)
Theorem C6_spawn_failure_requeues_at_tail w pid id :
  workers w !! pid = Some id →
  ∃ w', step (EvWorkerError pid) w = Some w'
    ∧ q (pq w') = q (pq w) ++ [id]
    ∧ nextTicks w' = nextTicks w
    ∧ workers w' = workers w
    ∧ outbox w' = outbox w
    ∧ (nextTicks w = [] → turn (EvWorkerError pid) w = Some w').
Proof.
  intros Hw.
  destruct (step_worker_error w pid id Hw)
    as (w' & E & Eq & _ & _ & Et & Ew & Eo & _).
  exists w'. split_and!; try done.
  intros Hquiet. unfold turn. rewrite E. simpl.
  apply drain_quiet. congruence.
Qed.

(** Claim C7, amended.  Whatever events follow the handshake of
    connection [c], its counter equals the number of its messages
    that [JSON.parse] accepted: the increment comes after the parse
    and before [data[0]] is read, so a message that fails later is
    counted and one that does not parse is not. *)
Theorem C7_counter_counts_parsed_messages w0 r id evs w :
  let c := length (sessions w0) in
  turns (EvConnection r id :: evs) w0 = Some w →
  ∃ s, sessions w !! c = Some s
    ∧ numberOfEvents s = parsed_count (messages_of c evs).
Proof.
  intros c Ht. simpl in Ht.
  destruct (turn (EvConnection r id) w0) as [wa|] eqn:Ea; [|done].
  unfold turn in Ea.
  destruct (step_connection w0 r id) as (w1 & E1 & Es & _).
  rewrite E1 in Ea. simpl in Ea.
  assert (sessions w1 !! c = Some (mkSession id 0 (Some (file_of id)))) as Hc.
  { rewrite Es. by rewrite list_lookup_middle. }
  destruct (drain_counter c _ w1 wa _ Hc Ea) as (sa & Hsa & Ena).
  destruct (turns_counter c evs wa w sa Hsa Ht) as (s & Hs & En).
  exists s. split; [done|]. rewrite En, Ena. simpl. lia.
Qed.

(** Claim C8.  A message on which [JSON.parse], [data[0]] or
    [obfuscate] throws is logged with its exception and leaves every
    file as it was; the handler returns normally, the closure keeps
    its identifier and its stream, and nothing else in the process
    changes. *)
Theorem C8_malformed_message_is_dropped w c s msg e :
  sessions w !! c = Some s →
  processed_event msg = Throw e →
  ∃ w', step (EvMessage c msg) w = Some w'
    ∧ files w' = files w
    ∧ console w' = console w ++ [LogErrorWhileProcessing e msg]
    ∧ same_backend w w'
    ∧ ∃ s', sessions w' !! c = Some s'
        ∧ clientid s' = clientid s ∧ tempStream s' = tempStream s.
Proof.
  intros Hs. unfold processed_event, same_backend.
  unfold_m. rewrite Hs. simpl.
  unfold on_message, try_catch, JSON_parse_or_throw, obfuscate_in_place.
  unfold_m.
  destruct (JSON_parse msg) as [data|]; simpl.
  2:{ intros [= <-]. stepped. eauto. }
  destruct (index0 data) as [tag|e']; simpl.
  2:{ intros [= <-]. stepped. rewrite list_lookup_alter_eq, Hs. simpl. eauto. }
  destruct (is_getUserMedia tag); [done|]. simpl.
  destruct (obfuscate data) as [data'|]; [done|]. simpl.
  intros [= <-]. stepped. rewrite list_lookup_alter_eq, Hs. simpl. eauto.
Qed.

(** Claim C9.  Connection [c] is open and the tick queued by its
    handshake is next.  If the tick runs now, before the close, it
    appends one line to the log, the location record
    [["location", null, city, Date.now()]] with the city looked up for
    the address.  If the connection closes first, the close record
    [["close", null, null, Date.now()]] is appended and [tempStream]
    becomes [null]; the tick that runs afterwards writes nothing, logs
    nothing and raises nothing, so the close record stays last. *)
Theorem C9_late_location_is_dropped w c s path a rest :
  let location :=
    JArr [JStr "location"; JNull; cityLookup_get a; JNum (clock w)] in
  let close := JArr [JStr "close"; JNull; JNull; JNum (clock w)] in
  sessions w !! c = Some s →
  tempStream s = Some path →
  nextTicks w = TkLocation c a :: rest →
  (∃ w', step EvTick w = Some w'
     ∧ files w' =
       alter (λ x, x +:+ JSON_stringify location +:+ String (ascii_of_nat 10) "")
         path (files w))
  ∧ (∃ w1 w2, step (EvClose c) w = Some w1
       ∧ files w1 = alter (λ x, x +:+ JSON_stringify close) path (files w)
       ∧ (∃ s1, sessions w1 !! c = Some s1 ∧ tempStream s1 = None)
       ∧ step EvTick w1 = Some w2
       ∧ files w2 = files w1
       ∧ console w2 = console w1
       ∧ outbox w2 = outbox w1).
Proof.
  intros location close Hs Hp Ht. split.
  - destruct (step_tick_location w c a rest Ht) as (w' & E & _ & Ef & _).
    exists w'. split; [done|]. by rewrite Hs in Ef; simpl in Ef; rewrite Hp in Ef.
  - destruct (step_close w c s path Hs Hp)
      as (w1 & E1 & Es1 & Ef1 & _ & _ & Et1 & _).
    rewrite Ht in Et1.
    destruct (step_tick_location w1 c a rest Et1)
      as (w2 & E2 & _ & Ef2 & _ & _ & _ & _ & _ & Eo2 & Ec2 & _).
    exists w1, w2. split_and!; try done.
    + exists (set_tempStream None s). by rewrite Es1, list_lookup_alter_eq, Hs.
    + rewrite Ef2, Es1, list_lookup_alter_eq, Hs. done.
Qed.

(** Claim C10.  The callback of [fs.readFile] in the exit handler: on
    an error nothing leaves the process and the working directory is
    unchanged, only the error is logged; on success the file is
    unlinked and then its contents are given to [Store.put]. *)
Theorem C10_failed_read_forwards_nothing w i io_ok id :
  reads w !! i = Some id →
  ∃ w', step (EvReadFile i io_ok) w = Some w'
    ∧ match (if io_ok then files w !! file_of id else None) with
      | None =>
          outbox w' = outbox w
          ∧ files w' = files w
          ∧ console w' = console w ++ [LogCouldNotOpen id]
      | Some data =>
          outbox w' = outbox w ++ [Unlink (file_of id); StorePut id data]
          ∧ files w' = delete (file_of id) (files w)
      end.
Proof.
  intros Hr.
  destruct (step_readFile w i io_ok id Hr)
    as (w' & E & _ & _ & _ & _ & _ & _ & _ & Hcase).
  exists w'. split; [done|].
  destruct (if io_ok then _ else _); destruct Hcase as (? & ? & ?); done.
Qed.

End Claims.

(** * The claims on concrete runs *)

Section Examples.
Import Demo.

(** Claim C1, refuted by the code.  On two CPUs both sessions are in
    flight, so [numProc] is 2.  Worker 0 then reports ['error'] and
    ['exit']: the two decrements leave 0, and the exit handler
    dispatches the re-queued [a] as worker 2, which brings the counter
    to 1 with two children registered.  When workers 1 and 2 both
    fail to spawn, the ['error'] handler, which has no clamp, takes
    the counter to [-1]. *)
Theorem C1_numProc_goes_negative :
  ∃ w1 w2,
    turns two_sessions (initial 2) = Some w1
    ∧ numProc (pq w1) = 2 ∧ workers w1 = ["a"; "b"]
    ∧ turns unbalanced w1 = Some w2
    ∧ maxProc (pq w2) = 2 ∧ numProc (pq w2) = -1.
Proof.
  eexists _, _. split; [vm_compute; reflexivity|].
  split; [reflexivity|]. split; [reflexivity|].
  split; [vm_compute; reflexivity|]. split; reflexivity.
Qed.

Lemma start_is_fresh id : fresh id start.
Proof.
  split_and!; [|apply not_elem_of_nil..].
  intros s Hs. by apply elem_of_nil in Hs.
Qed.



(** Claim C4 on a run: on connection 0, right after its handshake, a
    [getUserMedia] event is appended as it came, and a [custom] event
    is appended with its third element redacted. *)
Lemma C4_witness :
  sessions streaming0 !! 0%nat = Some (mkSession "id-1" 0 (Some (file_of "id-1")))
  ∧ JSON_parse gum_text = Some gum_event
  ∧ index0 gum_event = Ret (Some (JStr "getUserMedia"))
  ∧ JSON_parse custom_text = Some custom_event
  ∧ index0 custom_event = Ret (Some (JStr "custom"))
  ∧ obfuscate custom_event = Some (JArr [JStr "custom"; JNull; JStr "***"])
  ∧ (∃ w', step (EvMessage 0 gum_text) streaming0 = Some w'
       ∧ files w' =
         alter (λ x, x +:+ stringify (JArr [JStr "getUserMedia"; JNull; JBool true])
                       +:+ String (ascii_of_nat 10) "")
           (file_of "id-1") (files streaming0)
       ∧ log_lines (default "" (files w' !! file_of "id-1")) =
           [ stringify (JObj [("path", JStr "/trace");
                             ("origin", JStr "https://example.org");
                             ("url", JStr "https://example.org/trace");
                             ("userAgent", JStr "Firefox");
                             ("time", JNum 1000); ("fileFormat", JNum 2)]);
             stringify (JArr [JStr "location"; JNull; JNull; JNum 1000]);
             stringify (JArr [JStr "getUserMedia"; JNull; JBool true]);
             "" ])
  ∧ (∃ w', step (EvMessage 0 custom_text) streaming0 = Some w'
       ∧ files w' =
         alter (λ x, x +:+ stringify (JArr [JStr "custom"; JNull; JStr "***"])
                       +:+ String (ascii_of_nat 10) "")
           (file_of "id-1") (files streaming0)
       ∧ log_lines (default "" (files w' !! file_of "id-1")) =
           [ stringify (JObj [("path", JStr "/trace");
                             ("origin", JStr "https://example.org");
                             ("url", JStr "https://example.org/trace");
                             ("userAgent", JStr "Firefox");
                             ("time", JNum 1000); ("fileFormat", JNum 2)]);
             stringify (JArr [JStr "location"; JNull; JNull; JNum 1000]);
             stringify (JArr [JStr "custom"; JNull; JStr "***"]);
             "" ]).
Proof.
  split_and!; [reflexivity..| |].
  - destruct (C4_allow_list_bypasses_redaction streaming0 0
                (mkSession "id-1" 0 (Some (file_of "id-1"))) (file_of "id-1")
                gum_text gum_event (Some (JStr "getUserMedia")))
      as (w' & E & Hin & _); [reflexivity..|].
    assert (files w' =
            alter (λ x, x +:+ stringify gum_event +:+ String (ascii_of_nat 10) "")
              (file_of "id-1") (files streaming0)) as Ef.
    { apply Hin. exists "getUserMedia". split; [reflexivity|]. by left. }
    exists w'. split; [exact E|]. split; [exact Ef|].
    rewrite Ef. vm_compute; reflexivity.
  - destruct (C4_allow_list_bypasses_redaction streaming0 0
                (mkSession "id-1" 0 (Some (file_of "id-1"))) (file_of "id-1")
                custom_text custom_event (Some (JStr "custom")))
      as (w' & E & _ & Hout); [reflexivity..|].
    assert (files w' =
            alter (λ x, x +:+ stringify (JArr [JStr "custom"; JNull; JStr "***"])
                          +:+ String (ascii_of_nat 10) "")
              (file_of "id-1") (files streaming0)) as Ef.
    { apply Hout; [|reflexivity]. intros (t & [= <-] & Hin).
      revert Hin. apply (bool_decide_unpack _). vm_compute. exact I. }
    exists w'. split; [exact E|]. split; [exact Ef|].
    rewrite Ef. vm_compute; reflexivity.
Defined.



Lemma C6_witness :
  workers dispatched !! 1%nat = Some "b"
  ∧ ∃ w', step (EvWorkerError 1) dispatched = Some w'
      ∧ q (pq w') = q (pq dispatched) ++ ["b"]
      ∧ nextTicks w' = nextTicks dispatched
      ∧ workers w' = workers dispatched
      ∧ outbox w' = outbox dispatched
      ∧ (nextTicks dispatched = [] →
         turn (EvWorkerError 1) dispatched = Some w').
Proof.
  split; [reflexivity|].
  apply (C6_spawn_failure_requeues_at_tail dispatched 1 "b"). reflexivity.
Defined.

(** The claim C7 as worded fails: a text that is not JSON is received
    but not counted. *)
Lemma C7_counterexample :
  ∃ w s,
    turns (session_of [EvMessage 0 "not json"]) start = Some w
    ∧ messages_of 0 [EvMessage 0 "not json"] = ["not json"]
    ∧ sessions w !! 0%nat = Some s
    ∧ numberOfEvents s = 0
    ∧ numberOfEvents s
      ≠ Z.of_nat (length (messages_of 0 [EvMessage 0 "not json"])).
Proof.
  eexists _, _. split; [vm_compute; reflexivity|].
  split; [reflexivity|]. split; [reflexivity|]. split; [reflexivity|].
  vm_compute. discriminate.
Qed.

Lemma C7_witness :
  turns (EvConnection request1 "id-1" :: talk ++ [EvClose 0]) start = Some talked
  ∧ ∃ s, sessions talked !! length (sessions start) = Some s
      ∧ numberOfEvents s
        = parsed_count (messages_of (length (sessions start)) (talk ++ [EvClose 0])).
Proof.
  split; [vm_compute; reflexivity|].
  apply (C7_counter_counts_parsed_messages start request1 "id-1"
           (talk ++ [EvClose 0]) talked).
  vm_compute; reflexivity.
Defined.

Lemma C8_witness :
  sessions streaming0 !! 0%nat = Some (mkSession "id-1" 0 (Some (file_of "id-1")))
  ∧ processed_event "null"
    = Throw (TypeError "Cannot read property '0' of null")
  ∧ ∃ w', step (EvMessage 0 "null") streaming0 = Some w'
      ∧ files w' = files streaming0
      ∧ console w' =
          console streaming0
          ++ [LogErrorWhileProcessing
                (TypeError "Cannot read property '0' of null") "null"]
      ∧ same_backend streaming0 w'
      ∧ ∃ s', sessions w' !! 0%nat = Some s'
          ∧ clientid s' = clientid (mkSession "id-1" 0 (Some (file_of "id-1")))
          ∧ tempStream s' = tempStream (mkSession "id-1" 0 (Some (file_of "id-1"))).
Proof.
  split_and!; [reflexivity..|].
  apply (C8_malformed_message_is_dropped streaming0 0
           (mkSession "id-1" 0 (Some (file_of "id-1"))) "null"
           (TypeError "Cannot read property '0' of null")); reflexivity.
Defined.

(** Claim C9 on a run: connection 0 right after the handler of its
    handshake.  If the tick runs first the file has the metadata line
    and the location line; if the close comes first the file ends
    with the close record and the tick adds nothing. *)
Lemma C9_witness :
  sessions handshaken !! 0%nat
  = Some (mkSession "id-1" 0 (Some (file_of "id-1")))
  ∧ nextTicks handshaken = [TkLocation 0 "203.0.113.9"]
  ∧ (∃ w', step EvTick handshaken = Some w'
       ∧ log_lines (default "" (files w' !! file_of "id-1")) =
           [ stringify (JObj [("path", JStr "/trace");
                             ("origin", JStr "https://example.org");
                             ("url", JStr "https://example.org/trace");
                             ("userAgent", JStr "Firefox");
                             ("time", JNum 1000); ("fileFormat", JNum 2)]);
             stringify (JArr [JStr "location"; JNull; JNull; JNum 1000]);
             "" ])
  ∧ (∃ w1 w2, step (EvClose 0) handshaken = Some w1
       ∧ (∃ s1, sessions w1 !! 0%nat = Some s1 ∧ tempStream s1 = None)
       ∧ step EvTick w1 = Some w2
       ∧ files w2 = files w1
       ∧ console w2 = console w1
       ∧ outbox w2 = outbox w1
       ∧ log_lines (default "" (files w2 !! file_of "id-1")) =
           [ stringify (JObj [("path", JStr "/trace");
                             ("origin", JStr "https://example.org");
                             ("url", JStr "https://example.org/trace");
                             ("userAgent", JStr "Firefox");
                             ("time", JNum 1000); ("fileFormat", JNum 2)]);
             stringify (JArr [JStr "close"; JNull; JNull; JNum 1000]) ]).
Proof.
  split; [reflexivity|]. split; [reflexivity|].
  destruct (C9_late_location_is_dropped handshaken 0
              (mkSession "id-1" 0 (Some (file_of "id-1"))) (file_of "id-1")
              "203.0.113.9" [])
    as [(w' & E & Ef) (w1 & w2 & E1 & Ef1 & Hs1 & E2 & Ef2 & Ec2 & Eo2)];
    [reflexivity..|].
  split.
  - exists w'. split; [exact E|]. rewrite Ef. vm_compute; reflexivity.
  - exists w1, w2. split_and!; try assumption.
    rewrite Ef2, Ef1. vm_compute; reflexivity.
Defined.

Lemma C10_witness :
  reads exited !! 0%nat = Some "a"
  ∧ ∃ w', step (EvReadFile 0 false) exited = Some w'
      ∧ match (if false then files exited !! file_of "a" else None) with
        | None =>
            outbox w' = outbox exited
            ∧ files w' = files exited
            ∧ console w' = console exited ++ [LogCouldNotOpen "a"]
        | Some data =>
            outbox w' = outbox exited ++ [Unlink (file_of "a"); StorePut "a" data]
            ∧ files w' = delete (file_of "a") (files exited)
        end.
Proof.
  split; [reflexivity|].
  apply (C10_failed_read_forwards_nothing exited 0 false "a"). reflexivity.
Defined.

End Examples.

(** * More of the code, beyond the claims *)

(** ** [getRequestAddress]: splitting the header *)

Lemma string_app_cons_r (acc : string) c (s : string) :
  (acc +:+ String c "") +:+ s = acc +:+ String c s.
Proof. by rewrite string_app_assoc. Qed.

Lemma last_split_from acc s :
  last (split_from acc s) = Some (last_token_from acc s).
Proof.
  revert acc. induction s as [|c s IH]; intros acc; simpl; [done|].
  destruct (Ascii.eqb c ","); [|apply IH].
  by rewrite last_cons, IH.
Qed.

(** [last_token] is [tokens[tokens.length - 1]]. *)
Lemma last_token_is_last_of_split s :
  last (split_comma s) = Some (last_token s).
Proof. apply last_split_from. Qed.

Lemma has_comma_app s t : has_comma (s +:+ t) = has_comma s || has_comma t.
Proof.
  induction s as [|c s IH]; [done|].
  change (String c s +:+ t) with (String c (s +:+ t)). simpl.
  by rewrite IH, orb_assoc.
Qed.

Lemma split_from_tokens acc s :
  has_comma acc = false →
  Forall (λ t, has_comma t = false) (split_from acc s).
Proof.
  revert acc. induction s as [|c s IH]; intros acc Hacc; simpl.
  - by constructor.
  - destruct (Ascii.eqb c ",") eqn:E.
    + constructor; [done|]. by apply IH.
    + apply IH. rewrite has_comma_app. simpl. by rewrite Hacc, E.
Qed.

Lemma last_token_from_no_comma acc s :
  has_comma s = false → last_token_from acc s = acc +:+ s.
Proof.
  revert acc. induction s as [|c s IH]; intros acc; simpl.
  - by rewrite string_app_nil_r.
  - intros [E ?]%orb_false_elim. rewrite E, IH by done.
    apply string_app_cons_r.
Qed.

Lemma last_token_from_app acc pre t :
  last_token_from acc (pre +:+ "," +:+ t) = last_token t.
Proof.
  revert acc. induction pre as [|c pre IH]; intros acc.
  - done.
  - change (String c pre +:+ "," +:+ t) with (String c (pre +:+ "," +:+ t)).
    simpl. destruct (Ascii.eqb c ","); apply IH.
Qed.

(** Only the text after the last comma matters. *)
Lemma last_token_after_comma pre t :
  has_comma t = false → last_token (pre +:+ "," +:+ t) = t.
Proof.
  intros Ht. unfold last_token at 1. rewrite last_token_from_app.
  unfold last_token. by rewrite last_token_from_no_comma.
Qed.

Lemma last_token_no_comma s : has_comma (last_token s) = false.
Proof.
  pose proof (split_from_tokens "" s eq_refl) as Hall.
  pose proof (last_token_is_last_of_split s) as Hlast.
  rewrite Forall_forall in Hall. apply Hall.
  unfold split_comma in Hlast.
  by apply last_Some_elem_of.
Qed.

(** The candidate address is the last of the tokens [split] yields,
    and it holds no comma. *)
Theorem last_token_is_a_token s :
  last (split_comma s) = Some (last_token s)
  ∧ has_comma (last_token s) = false.
Proof.
  split; [apply last_token_is_last_of_split|apply last_token_no_comma].
Qed.

(** ** [setupWorkDirectory] *)

Section WorkDirFacts.
Import WorkDir.

Lemma unlink_each_files files rest :
  Forall is_file files →
  unlink_each (files.*1) (Directory (files ++ rest)) = 
  unlink_each [] (Directory rest).
Proof.
  induction 1 as [|[n e] files Hfile _ IH]; [done|].
  simpl. rewrite bool_decide_eq_true_2 by done.
  destruct e; [|done]. apply IH.
Qed.

Lemma clear_files files :
  Forall is_file files → clear (Directory files) = (None, Missing).
Proof.
  intros Hf. unfold clear. simpl.
  pose proof (unlink_each_files files [] Hf) as E.
  rewrite app_nil_r in E. by rewrite E.
Qed.

Lemma clear_subdirectory files name rest :
  Forall is_file files →
  clear (Directory (files ++ (name, Subdirectory) :: rest))
  = (Some EISDIR, Directory ((name, Subdirectory) :: rest)).
Proof.
  intros Hf. unfold clear. simpl. rewrite fmap_app, fmap_cons. simpl.
  assert (∀ names, unlink_each (files.*1 ++ names)
                     (Directory (files ++ (name, Subdirectory) :: rest))
                   = unlink_each names (Directory ((name, Subdirectory) :: rest)))
    as ->.
  { intros names. induction Hf as [|[n e] files Hfile _ IH]; [done|].
    simpl. rewrite bool_decide_eq_true_2 by done.
    destruct e; [|done]. apply IH. }
  simpl. by rewrite bool_decide_eq_true_2.
Qed.

(** Every directory is some regular files followed, perhaps, by a
    first subdirectory and the rest. *)
Lemma files_then_subdirectory entries :
  Forall is_file entries
  ∨ ∃ files name rest,
      entries = files ++ (name, Subdirectory) :: rest ∧ Forall is_file files.
Proof.
  induction entries as [|[n e] entries IH]; [by left|].
  destruct e as [content|].
  - destruct IH as [?|(files & name & rest & -> & ?)].
    + left. by constructor.
    + right. exists ((n, RegularFile content) :: files), name, rest.
      split; [done|]. by constructor.
  - right. exists [], n, entries. by split.
Qed.

(** [setupWorkDirectory] returns, rather than throws, exactly when
    [temp] is missing or is a directory that holds regular files
    only. *)
Theorem setupWorkDirectory_succeeds_iff t :
  thrown (setupWorkDirectory t) = None
  ↔ t = Missing ∨ ∃ files, t = Directory files ∧ Forall is_file files.
Proof.
  split.
  - destruct t as [| |entries]; [by left|done|].
    destruct (files_then_subdirectory entries)
      as [?|(files & name & rest & -> & Hf)]; [eauto|].
    unfold setupWorkDirectory. by rewrite clear_subdirectory.
  - intros [->|(files & -> & Hf)]; [done|].
    unfold setupWorkDirectory. by rewrite clear_files.
Qed.

(** When it returns it leaves an empty [temp] directory, whatever was
    in it, and it has printed ['work dir does not exist'] exactly when
    [temp] was missing. *)
Theorem setupWorkDirectory_result t :
  thrown (setupWorkDirectory t) = None →
  left_at_temp (setupWorkDirectory t) = Directory []
  ∧ (printed (setupWorkDirectory t) = true ↔ t = Missing).
Proof.
  intros [->|(files & -> & Hf)]%setupWorkDirectory_succeeds_iff.
  - done.
  - unfold setupWorkDirectory. rewrite clear_files by done. simpl.
    split; [done|]. split; [done|discriminate].
Qed.

(** A subdirectory in [temp] stops the start-up: the regular files
    listed before it are deleted, the error of [unlinkSync] is caught
    and the message printed, and [mkdirSync] then throws [EEXIST] out
    of the function, the directory still being there. *)
Theorem setupWorkDirectory_subdirectory files name rest :
  Forall is_file files →
  setupWorkDirectory (Directory (files ++ (name, Subdirectory) :: rest))
  = mkOutcome (Directory ((name, Subdirectory) :: rest)) true (Some EEXIST).
Proof.
  intros Hf. unfold setupWorkDirectory. by rewrite clear_subdirectory.
Qed.

End WorkDirFacts.

Section Coverage.
Context `{Builtins}.

(** ** The queue: dispatch in order *)

(** A session that counted an event finishes while a slot is free:
    the identifier joins the queue and, in the same turn, the head of
    the queue is forked. *)
Theorem finish_below_capacity_dispatches_head w c s :
  nextTicks w = [] →
  sessions w !! c = Some s →
  0 < numberOfEvents s →
  numProc (pq w) < maxProc (pq w) →
  ∃ w' head rest,
    turn (EvFinish c) w = Some w'
    ∧ q (pq w) ++ [clientid s] = head :: rest
    ∧ q (pq w') = rest
    ∧ nextTicks w' = []
    ∧ files w' = files w
    ∧ (head ≠ "" →
       workers w' = workers w ++ [head]
       ∧ numProc (pq w') = numProc (pq w) + 1
       ∧ outbox w' = outbox w ++ [Fork "extract.js" head])
    ∧ (head = "" →
       workers w' = workers w ∧ numProc (pq w') = numProc (pq w)
       ∧ outbox w' = outbox w).
Proof.
  intros Hq Hs Hn Hcap. unfold turn.
  destruct (step_finish w c s Hs)
    as (w1 & -> & _ & _ & Ew & _ & _ & _ & _ & Em & En & Hcase).
  rewrite bool_decide_eq_true_2 in Hcase by lia.
  destruct Hcase as (Eq & Et & Ef & Eo).
  rewrite bool_decide_eq_true_2, Hq in Et by done. simpl in Et.
  simpl. rewrite Et. simpl length. rewrite (drain_S _ _ _ _ Et).
  destruct (step_tick_process w1 [] Et)
    as (w2 & -> & Et2 & Ef2 & _ & _ & _ & _ & _ & _ & _ & _ & _ & Hcase).
  simpl. rewrite Et2.
  destruct (q (pq w1)) as [|head rest] eqn:Eq1.
  { by destruct (q (pq w)). }
  destruct Hcase as (Eq2 & Hcase).
  exists w2, head, rest. split; [done|]. split; [by rewrite <- Eq|].
  split; [done|]. split; [done|]. split; [congruence|].
  case_bool_decide; destruct Hcase as (En2 & Ew2 & Eo2).
  - split; [done|]. intros _. split_and!; congruence.
  - split; [|done]. intros _. split_and!; congruence.
Qed.

(** With every slot taken, the identifier is left pending: nothing is
    forked, no tick is queued, and the depth is logged. *)
Theorem finish_at_capacity_leaves_pending w c s :
  nextTicks w = [] →
  sessions w !! c = Some s →
  0 < numberOfEvents s →
  maxProc (pq w) ≤ numProc (pq w) →
  ∃ w', turn (EvFinish c) w = Some w'
    ∧ q (pq w') = q (pq w) ++ [clientid s]
    ∧ numProc (pq w') = numProc (pq w)
    ∧ workers w' = workers w
    ∧ outbox w' = outbox w
    ∧ nextTicks w' = []
    ∧ console w' = console w ++ [LogQueueTooLong (numProc (pq w))].
Proof.
  intros Hq Hs Hn Hcap.
  unfold turn. unfold_m. rewrite Hs. simpl.
  rewrite bool_decide_eq_true_2 by lia. simpl.
  rewrite bool_decide_eq_false_2 by lia. simpl.
  rewrite Hq. simpl. rewrite Hq. eexists. split; [done|]. simpl. done.
Qed.

(** A worker exits while identifiers are pending: the oldest one is
    forked in the same turn, in the slot that was freed. *)
Theorem exit_dispatches_oldest_pending w pid code id head rest :
  nextTicks w = [] →
  workers w !! pid = Some id →
  q (pq w) = head :: rest →
  head ≠ "" →
  Z.max 0 (numProc (pq w) - 1) < maxProc (pq w) →
  ∃ w', turn (EvWorkerExit pid code) w = Some w'
    ∧ q (pq w') = rest
    ∧ workers w' = workers w ++ [head]
    ∧ numProc (pq w') = Z.max 0 (numProc (pq w) - 1) + 1
    ∧ reads w' = reads w ++ [id]
    ∧ nextTicks w' = [].
Proof.
  intros Hq Hw Hpend Hhead Hcap. unfold turn.
  destruct (step_worker_exit w pid code id Hw)
    as (w1 & -> & Er & _ & _ & _ & Ew & _ & _ & _ & En & Eq & Em & Et).
  rewrite bool_decide_eq_true_2, Hq in Et by done. simpl in Et.
  simpl. rewrite Et. simpl length. rewrite (drain_S _ _ _ _ Et).
  destruct (step_tick_process w1 [] Et)
    as (w2 & -> & Et2 & _ & _ & Er2 & _ & _ & _ & _ & _ & _ & _ & Hcase).
  simpl. rewrite Et2. rewrite Eq, Hpend in Hcase.
  destruct Hcase as (Eq2 & Hcase).
  rewrite bool_decide_eq_false_2 in Hcase by done.
  destruct Hcase as (En2 & Ew2 & _).
  exists w2. split_and!; try done; congruence.
Qed.

(** *** Invariants of single steps hold along whole runs *)

Lemma drain_invariant (P : world → Prop) :
  (∀ ev w w', P w → step ev w = Some w' → P w') →
  ∀ fuel w w', P w → drain fuel w = Some w' → P w'.
Proof.
  intros Hstep fuel. induction fuel as [|fuel IH]; intros w w' Hw Hd;
    simpl in Hd.
  - destruct (nextTicks w); by simplify_eq.
  - destruct (nextTicks w); [by simplify_eq|].
    destruct (step EvTick w) as [w1|] eqn:E1; [|done]. eauto.
Qed.

Lemma turns_invariant (P : world → Prop) :
  (∀ ev w w', P w → step ev w = Some w' → P w') →
  ∀ evs w w', P w → turns evs w = Some w' → P w'.
Proof.
  intros Hstep evs. induction evs as [|ev evs IH]; intros w w' Hw Ht;
    simpl in Ht.
  - by simplify_eq.
  - destruct (turn ev w) as [w1|] eqn:E1; [|done]. unfold turn in E1.
    destruct (step ev w) as [w0|] eqn:E0; simpl in E1; [|done].
    eapply IH; [|exact Ht].
    eapply (drain_invariant P Hstep); [|exact E1].
    eapply Hstep; [exact Hw|exact E0].
Qed.

Lemma run_invariant (P : world → Prop) :
  (∀ ev w w', P w → step ev w = Some w' → P w') →
  ∀ evs w w', P w → run evs w = Some w' → P w'.
Proof.
  intros Hstep evs. induction evs as [|ev evs IH]; intros w w' Hw Ht;
    simpl in Ht.
  - by simplify_eq.
  - destruct (step ev w) as [w0|] eqn:E0; [|done]. eauto.
Qed.

(** *** The gauge of open connections *)

Lemma step_backend_connected ev w w' :
  match ev with
  | EvWorkerExit _ _ | EvWorkerMessage _ _ | EvWorkerError _
  | EvReadFile _ _ => True
  | _ => False
  end →
  step ev w = Some w' →
  connected w' = connected w ∧ sessions w' = sessions w.
Proof.
  destruct ev as [t|r uuid|c msg|c|c| |pid code|pid m|pid|i io_ok];
    try done; intros _; unfold_m.
  - destruct (workers w !! pid); simpl; [|by intros [= <-]].
    repeat (case_bool_decide; simpl); by intros [= <-].
  - destruct (workers w !! pid); simpl; by intros [= <-].
  - destruct (workers w !! pid); simpl; by intros [= <-].
  - destruct (reads w !! i); simpl; [|by intros [= <-]].
    destruct (if io_ok then _ else _); simpl; by intros [= <-].
Qed.

Lemma filter_alter_same {A} (P : A → Prop) `{∀ x, Decision (P x)} f c l :
  (∀ x, P (f x) ↔ P x) →
  length (filter P (alter f c l)) = length (filter P l).
Proof.
  intros Hf. revert c. induction l as [|x l IH]; intros [|c]; simpl; try done.
  - rewrite !filter_cons.
    destruct (decide (P (f x))) as [?|Hn], (decide (P x)) as [?|Hn'];
      simpl; try done.
    + destruct Hn'. by apply Hf.
    + destruct Hn. by apply Hf.
  - rewrite !filter_cons. destruct (decide (P x)); simpl;
      [f_equal|]; apply IH.
Qed.

Lemma filter_alter_drop {A} (P : A → Prop) `{∀ x, Decision (P x)} f c l x :
  l !! c = Some x → P x → ¬ P (f x) →
  S (length (filter P (alter f c l))) = length (filter P l).
Proof.
  revert c. induction l as [|y l IH]; intros [|c] Hl Hx Hfx; simpl in *;
    try done.
  - simplify_eq. rewrite !filter_cons.
    rewrite decide_False, decide_True by done. done.
  - rewrite !filter_cons. destruct (decide (P y)); simpl;
      [f_equal|]; by apply IH.
Qed.

Lemma step_gauge ev w w' :
  connected w = open_connections w →
  step ev w = Some w' →
  connected w' = open_connections w'.
Proof.
  unfold open_connections. intros Hinv Hstep.
  destruct ev as [t|r uuid|c msg|c|c| |pid code|pid m|pid|i io_ok].
  - rewrite step_advance in Hstep. by simplify_eq.
  - destruct (step_connection w r uuid)
      as (w'' & Hw'' & Es & _ & _ & _ & _ & _ & _ & _ & Ec & _).
    simplify_eq. rewrite Es, Ec, Hinv, filter_app, length_app.
    rewrite filter_cons. rewrite decide_True by (simpl; eauto). simpl. lia.
  - destruct (sessions w !! c) as [s|] eqn:Es'.
    2:{ rewrite step_absent_message in Hstep by done. by simplify_eq. }
    destruct (step_message w c msg s Es')
      as (w'' & Hw'' & (_ & _ & _ & _ & _ & _ & Ec & _) & Es & _).
    simplify_eq. rewrite Es, Ec, Hinv.
    destruct (JSON_parse msg); [|done].
    by rewrite filter_alter_same.
  - destruct (sessions w !! c) as [s|] eqn:Es'.
    2:{ rewrite step_absent_close in Hstep by done. by simplify_eq. }
    destruct (tempStream s) as [path|] eqn:Ets.
    2:{ by rewrite (step_close_released w c s) in Hstep. }
    destruct (step_close w c s path Es' Ets) as (w'' & Hw'' & Es & _ & Ec & _).
    simplify_eq. rewrite Es, Ec, Hinv.
    rewrite <- (filter_alter_drop _ (set_tempStream None) c (sessions w) s);
      [lia|done|by rewrite Ets|simpl; by intros [??]].
  - destruct (sessions w !! c) as [s|] eqn:Es'.
    2:{ rewrite step_absent_finish in Hstep by done. by simplify_eq. }
    destruct (step_finish w c s Es')
      as (w'' & Hw'' & Es & _ & _ & _ & Ec & _).
    simplify_eq. by rewrite Es, Ec.
  - destruct (nextTicks w) as [|[|c a] rest] eqn:Eticks.
    + rewrite step_idle_tick in Hstep by done. by simplify_eq.
    + destruct (step_tick_process w rest Eticks)
        as (w'' & Hw'' & _ & _ & Es & _ & _ & Ec & _).
      simplify_eq. by rewrite Es, Ec.
    + destruct (step_tick_location w c a rest Eticks)
        as (w'' & Hw'' & _ & _ & Es & _ & _ & _ & _ & _ & _ & Ec & _).
      simplify_eq. by rewrite Es, Ec.
  - destruct (step_backend_connected (EvWorkerExit pid code) w w' I Hstep) as [-> ->]. done.
  - destruct (step_backend_connected (EvWorkerMessage pid m) w w' I Hstep) as [-> ->]. done.
  - destruct (step_backend_connected (EvWorkerError pid) w w' I Hstep) as [-> ->]. done.
  - destruct (step_backend_connected (EvReadFile i io_ok) w w' I Hstep) as [-> ->]. done.
Qed.

(** The gauge [rtcstats_websocket_connections] is exact: in every
    state the server reaches, it equals the number of connections that
    have not closed. *)
Theorem connected_counts_open_connections cpus evs w :
  turns evs (initial cpus) = Some w →
  connected w = open_connections w.
Proof.
  apply (turns_invariant (λ w, connected w = open_connections w)).
  - intros ev w0 w1. apply step_gauge.
  - done.
Qed.

Lemma step_session_grows c ev w w' s :
  sessions w !! c = Some s →
  step ev w = Some w' →
  ∃ s', sessions w' !! c = Some s'
    ∧ clientid s' = clientid s
    ∧ numberOfEvents s ≤ numberOfEvents s'.
Proof.
  intros Hs Hstep.
  assert (∀ f, (∀ x, clientid (f x) = clientid x) →
               (∀ x, numberOfEvents x ≤ numberOfEvents (f x)) →
               ∀ c', ∃ s', alter f c' (sessions w) !! c = Some s'
                 ∧ clientid s' = clientid s
                 ∧ numberOfEvents s ≤ numberOfEvents s') as Halter.
  { intros f Hid Hn c'. rewrite list_lookup_alter. case_decide; subst.
    - rewrite Hs. simpl. eauto.
    - exists s. split; [done|]. split; [done|lia]. }
  assert (sessions w' = sessions w →
          ∃ s', sessions w' !! c = Some s' ∧ clientid s' = clientid s
            ∧ numberOfEvents s ≤ numberOfEvents s') as Hsame.
  { intros ->. exists s. split; [done|]. split; [done|lia]. }
  destruct ev as [t|r uuid|c' msg|c'|c'| |pid code|pid m|pid|i io_ok].
  - rewrite step_advance in Hstep. simplify_eq. by apply Hsame.
  - destruct (step_connection w r uuid) as (w'' & Hw'' & Es & _).
    simplify_eq. exists s. rewrite Es, lookup_app_l
      by (by eapply lookup_lt_Some). split; [done|]. split; [done|lia].
  - destruct (sessions w !! c') as [s'|] eqn:Es'.
    2:{ rewrite step_absent_message in Hstep by done. simplify_eq.
        by apply Hsame. }
    destruct (step_message w c' msg s' Es') as (w'' & Hw'' & _ & Es & _).
    simplify_eq. destruct (JSON_parse msg); [|by apply Hsame].
    rewrite Es. apply Halter; [done|]. intros x. simpl. lia.
  - destruct (sessions w !! c') as [s'|] eqn:Es'.
    2:{ rewrite step_absent_close in Hstep by done. simplify_eq.
        by apply Hsame. }
    destruct (tempStream s') as [path|] eqn:Ets.
    2:{ by rewrite (step_close_released w c' s') in Hstep. }
    destruct (step_close w c' s' path Es' Ets) as (w'' & Hw'' & Es & _).
    simplify_eq. rewrite Es. apply Halter; [done|]. intros x. simpl. lia.
  - destruct (sessions w !! c') as [s'|] eqn:Es'.
    2:{ rewrite step_absent_finish in Hstep by done. simplify_eq.
        by apply Hsame. }
    destruct (step_finish w c' s' Es') as (w'' & Hw'' & Es & _).
    simplify_eq. by apply Hsame.
  - destruct (nextTicks w) as [|[|c' a] rest] eqn:Eticks.
    + rewrite step_idle_tick in Hstep by done. simplify_eq. by apply Hsame.
    + destruct (step_tick_process w rest Eticks)
        as (w'' & Hw'' & _ & _ & Es & _).
      simplify_eq. by apply Hsame.
    + destruct (step_tick_location w c' a rest Eticks)
        as (w'' & Hw'' & _ & _ & Es & _).
      simplify_eq. by apply Hsame.
  - apply Hsame. by eapply (step_backend_connected (EvWorkerExit pid code)).
  - apply Hsame. by eapply (step_backend_connected (EvWorkerMessage pid m)).
  - apply Hsame. by eapply (step_backend_connected (EvWorkerError pid)).
  - apply Hsame. by eapply (step_backend_connected (EvReadFile i io_ok)).
Qed.

Lemma step_counted_session id ev w w' :
  counted_session id w → step ev w = Some w' → counted_session id w'.
Proof.
  intros (c & s & Hs & Hid & Hn) Hstep.
  destruct (step_session_grows c ev w w' s Hs Hstep) as (s' & ? & ? & ?).
  exists c, s'. split; [done|]. split; [congruence|lia].
Qed.

Lemma step_only_counted ev w w' :
  only_counted w → step ev w = Some w' → only_counted w'.
Proof.
  intros Hinv Hstep id Hid.
  assert (id ∈ q (pq w) ∨ id ∈ workers w ∨ id ∈ reads w
          ∨ counted_session id w) as Hold; last first.
  { eapply step_counted_session; [|done].
    destruct Hold as [?|[?|[?|?]]]; eauto. }
  destruct ev as [t|r uuid|c msg|c|c| |pid code|pid m|pid|i io_ok].
  - rewrite step_advance in Hstep. simplify_eq. simpl in Hid. tauto.
  - destruct (step_connection w r uuid)
      as (w'' & Hw'' & _ & _ & _ & Epq & _ & Ew & Er & _).
    simplify_eq. rewrite Epq, Ew, Er in Hid. tauto.
  - destruct (sessions w !! c) as [s|] eqn:Es.
    2:{ rewrite step_absent_message in Hstep by done. simplify_eq. tauto. }
    destruct (step_message w c msg s Es)
      as (w'' & Hw'' & (Epq & _ & _ & Ew & Er & _) & _).
    simplify_eq. rewrite Epq, Ew, Er in Hid. tauto.
  - destruct (sessions w !! c) as [s|] eqn:Es.
    2:{ rewrite step_absent_close in Hstep by done. simplify_eq. tauto. }
    destruct (tempStream s) as [path|] eqn:Ets.
    2:{ by rewrite (step_close_released w c s) in Hstep. }
    destruct (step_close w c s path Es Ets)
      as (w'' & Hw'' & _ & _ & _ & Epq & _ & _ & Ew & Er & _).
    simplify_eq. rewrite Epq, Ew, Er in Hid. tauto.
  - destruct (sessions w !! c) as [s|] eqn:Es.
    2:{ rewrite step_absent_finish in Hstep by done. simplify_eq. tauto. }
    destruct (step_finish w c s Es)
      as (w'' & Hw'' & _ & _ & Ew & Er & _ & _ & _ & _ & _ & Hcase).
    simplify_eq. rewrite Ew, Er in Hid. case_bool_decide.
    + destruct Hcase as (Eq & _). rewrite Eq, elem_of_app in Hid.
      destruct Hid as [[?|Hnew]|?]; [tauto| |tauto].
      apply list_elem_of_singleton in Hnew as ->.
      right; right; right. exists c, s. split; [done|]. split; [done|lia].
    + destruct Hcase as (Epq & _). rewrite Epq in Hid. tauto.
  - destruct (nextTicks w) as [|[|c a] rest] eqn:Eticks.
    + rewrite step_idle_tick in Hstep by done. simplify_eq. tauto.
    + destruct (step_tick_process w rest Eticks)
        as (w'' & Hw'' & _ & _ & _ & Er & _ & _ & _ & _ & _ & _ & _ & Hcase).
      simplify_eq. rewrite Er in Hid.
      destruct (q (pq w)) as [|head others] eqn:Eq.
      * destruct Hcase as (Epq & Ew & _). rewrite Epq, Ew, Eq in Hid. tauto.
      * destruct Hcase as (Eq' & Hcase). rewrite Eq' in Hid.
        assert (id ∈ workers w' → id ∈ head :: others ∨ id ∈ workers w)
          as Hw'.
        { case_bool_decide; destruct Hcase as (_ & -> & _); [tauto|].
          rewrite elem_of_app, list_elem_of_singleton, elem_of_cons.
          intros [?| ->]; tauto. }
        rewrite elem_of_cons. rewrite elem_of_cons in Hw'. tauto.
    + destruct (step_tick_location w c a rest Eticks)
        as (w'' & Hw'' & _ & _ & _ & Epq & _ & Ew & Er & _).
      simplify_eq. rewrite Epq, Ew, Er in Hid. tauto.
  - destruct (workers w !! pid) as [id'|] eqn:Ew'.
    2:{ rewrite step_absent_exit in Hstep by done. simplify_eq. tauto. }
    destruct (step_worker_exit w pid code id' Ew')
      as (w'' & Hw'' & Er & _ & _ & _ & Ew & _ & _ & _ & _ & Eq & _).
    simplify_eq. rewrite Eq, Ew, Er, elem_of_app, list_elem_of_singleton in Hid.
    destruct Hid as [?|[?|[?| ->]]]; try tauto.
    right; left. by eapply list_elem_of_lookup_2.
  - destruct (workers w !! pid) as [id'|] eqn:Ew'.
    2:{ rewrite step_absent_worker_message in Hstep by done.
        simplify_eq. tauto. }
    destruct (step_worker_message w pid m id' Ew')
      as (w'' & Hw'' & _ & Epq & _ & _ & _ & Ew & Er & _).
    simplify_eq. rewrite Epq, Ew, Er in Hid. tauto.
  - destruct (workers w !! pid) as [id'|] eqn:Ew'.
    2:{ rewrite step_absent_error in Hstep by done. simplify_eq. tauto. }
    destruct (step_worker_error w pid id' Ew')
      as (w'' & Hw'' & Eq & _ & _ & _ & Ew & _ & _ & Er & _).
    simplify_eq. rewrite Eq, Ew, Er, elem_of_app, list_elem_of_singleton in Hid.
    destruct Hid as [[?| ->]|[?|?]]; try tauto.
    right; left. by eapply list_elem_of_lookup_2.
  - destruct (reads w !! i) as [id'|] eqn:Er'.
    2:{ rewrite step_absent_read in Hstep by done. simplify_eq. tauto. }
    destruct (step_readFile w i io_ok id' Er')
      as (w'' & Hw'' & Er & Epq & _ & _ & Ew & _).
    simplify_eq. rewrite Epq, Ew, Er in Hid.
    destruct Hid as [?|[?|?%list_elem_of_delete_inv]]; tauto.
Qed.

(** No extraction for a session that counted nothing: whatever the
    server has been through, an identifier that is pending, was forked
    or is being read is the identifier of a connection whose counter
    is positive. *)
Theorem only_counted_sessions_are_extracted cpus evs w id :
  turns evs (initial cpus) = Some w →
  id ∈ q (pq w) ∨ id ∈ workers w ∨ id ∈ reads w →
  counted_session id w.
Proof.
  intros Ht. revert id.
  assert (only_counted (initial cpus)) as Hinit.
  { intros id [Hin|[Hin|Hin]]; by apply elem_of_nil in Hin. }
  exact (turns_invariant only_counted step_only_counted evs _ _ Hinit Ht).
Qed.

Lemma continues_refl before : continues before before.
Proof.
  destruct before as [old|]; simpl; [|done].
  exists "". by rewrite string_app_nil_r.
Qed.

Lemma continues_alter before path more p (m : gmap string string) :
  continues before (m !! path) →
  continues before (alter (λ x, x +:+ more) p m !! path).
Proof.
  rewrite lookup_alter. case_decide; [|done]. subst.
  destruct (m !! path), before as [old|]; simpl; try done.
  intros [y ->]. exists (y +:+ more). by rewrite string_app_assoc.
Qed.

Lemma continues_delete before path p (m : gmap string string) :
  continues before (m !! path) → continues before (delete p m !! path).
Proof.
  rewrite lookup_delete. case_decide; [|done]. by destruct before.
Qed.

Lemma step_continues old path ev w w' :
  ¬ reopens path ev →
  continues old (files w !! path) →
  step ev w = Some w' →
  continues old (files w' !! path).
Proof.
  intros Hev Hold Hstep.
  destruct ev as [t|r uuid|c msg|c|c| |pid code|pid m|pid|i io_ok].
  - rewrite step_advance in Hstep. by simplify_eq.
  - destruct (step_connection w r uuid) as (w'' & Hw'' & _ & Ef & _).
    simplify_eq. rewrite Ef, lookup_insert_ne; done.
  - destruct (sessions w !! c) as [s|] eqn:Es.
    2:{ rewrite step_absent_message in Hstep by done. by simplify_eq. }
    destruct (step_message w c msg s Es) as (w'' & Hw'' & _ & _ & Ef).
    simplify_eq. rewrite Ef. destruct (tempStream s); [|done].
    by apply continues_alter.
  - destruct (sessions w !! c) as [s|] eqn:Es.
    2:{ rewrite step_absent_close in Hstep by done. by simplify_eq. }
    destruct (tempStream s) as [p|] eqn:Ets.
    2:{ by rewrite (step_close_released w c s) in Hstep. }
    destruct (step_close w c s p Es Ets) as (w'' & Hw'' & _ & Ef & _).
    simplify_eq. rewrite Ef. by apply continues_alter.
  - destruct (sessions w !! c) as [s|] eqn:Es.
    2:{ rewrite step_absent_finish in Hstep by done. by simplify_eq. }
    destruct (step_finish w c s Es)
      as (w'' & Hw'' & _ & _ & _ & _ & _ & _ & _ & _ & _ & Hcase).
    simplify_eq. case_bool_decide.
    + destruct Hcase as (_ & _ & -> & _). done.
    + destruct Hcase as (_ & _ & -> & _). by apply continues_delete.
  - destruct (nextTicks w) as [|[|c a] rest] eqn:Eticks.
    + rewrite step_idle_tick in Hstep by done. by simplify_eq.
    + destruct (step_tick_process w rest Eticks) as (w'' & Hw'' & _ & Ef & _).
      simplify_eq. by rewrite Ef.
    + destruct (step_tick_location w c a rest Eticks)
        as (w'' & Hw'' & _ & Ef & _).
      simplify_eq. rewrite Ef.
      destruct (sessions w !! c ≫= tempStream); [|done].
      by apply continues_alter.
  - destruct (workers w !! pid) as [id'|] eqn:Ew'.
    2:{ rewrite step_absent_exit in Hstep by done. by simplify_eq. }
    destruct (step_worker_exit w pid code id' Ew') as (w'' & Hw'' & _ & Ef & _).
    simplify_eq. by rewrite Ef.
  - destruct (workers w !! pid) as [id'|] eqn:Ew'.
    2:{ rewrite step_absent_worker_message in Hstep by done.
        by simplify_eq. }
    destruct (step_worker_message w pid m id' Ew')
      as (w'' & Hw'' & _ & _ & _ & _ & _ & _ & _ & Ef & _).
    simplify_eq. by rewrite Ef.
  - destruct (workers w !! pid) as [id'|] eqn:Ew'.
    2:{ rewrite step_absent_error in Hstep by done. by simplify_eq. }
    destruct (step_worker_error w pid id' Ew')
      as (w'' & Hw'' & _ & _ & _ & _ & _ & _ & _ & _ & Ef & _).
    simplify_eq. by rewrite Ef.
  - destruct (reads w !! i) as [id'|] eqn:Er'.
    2:{ rewrite step_absent_read in Hstep by done. by simplify_eq. }
    destruct (step_readFile w i io_ok id' Er')
      as (w'' & Hw'' & _ & _ & _ & _ & _ & _ & _ & Hcase).
    simplify_eq.
    destruct (if io_ok then _ else _); destruct Hcase as (_ & -> & _);
      [by apply continues_delete|done].
Qed.

Lemma drain_continues old path fuel w w' :
  continues old (files w !! path) →
  drain fuel w = Some w' →
  continues old (files w' !! path).
Proof.
  revert w. induction fuel as [|fuel IH]; intros w Hold Hd; simpl in Hd.
  - destruct (nextTicks w); by simplify_eq.
  - destruct (nextTicks w); [by simplify_eq|].
    destruct (step EvTick w) as [w1|] eqn:E1; [|done].
    eapply IH; [|done]. eapply (step_continues old path EvTick); [|done..].
    by intros [].
Qed.

(** The logs are append-only.  As long as no handshake is given the
    same identifier again, whatever is in a file of the working
    directory stays there as a prefix until the file is deleted, and
    where there is no file, one that was deleted or one that never
    was, none appears. *)
Theorem log_is_append_only path evs w w' :
  Forall (λ ev, ¬ reopens path ev) evs →
  turns evs w = Some w' →
  match files w !! path with
  | Some old =>
      files w' !! path = None ∨ ∃ more, files w' !! path = Some (old +:+ more)
  | None => files w' !! path = None
  end.
Proof.
  intros Hevs Ht.
  assert (continues (files w !! path) (files w' !! path)) as Hc.
  { remember (files w !! path) as before eqn:Eb.
    assert (continues before (files w !! path)) as Hstart
      by (rewrite <- Eb; apply continues_refl).
    clear Eb. revert w Hstart Ht.
    induction Hevs as [|ev evs Hev _ IH]; intros w Hstart Ht; simpl in Ht.
    - by simplify_eq.
    - destruct (turn ev w) as [w1|] eqn:E1; [|done]. unfold turn in E1.
      destruct (step ev w) as [w0|] eqn:E0; simpl in E1; [|done].
      eapply IH; [|done]. eapply drain_continues; [|done].
      by eapply step_continues. }
  destruct (files w !! path) as [old|], (files w' !! path) as [x|];
    simpl in Hc; try done; [right|by left].
  destruct Hc as [more ->]. eauto.
Qed.

(** *** Children that report once *)

Lemma bounded_NoDup_length (l : list nat) n :
  NoDup l → (∀ p, p ∈ l → (p < n)%nat) → (length l ≤ n)%nat.
Proof.
  intros Hnd Hb. replace n with (length (seq 0 n)) by apply length_seq.
  apply submseteq_length, NoDup_submseteq; [done|].
  intros p Hp. apply elem_of_seq. specialize (Hb p Hp). lia.
Qed.

Lemma live_count_bounds w reported :
  live_count w reported → 0 ≤ numProc (pq w) ≤ Z.of_nat (length (workers w)).
Proof.
  intros (Hnd & Hb & ->).
  pose proof (bounded_NoDup_length reported _ Hnd Hb). lia.
Qed.

Lemma step_live_count ev w w' reported :
  live_count w reported →
  (∀ p, terminal ev = Some p → p ∉ reported) →
  step ev w = Some w' →
  ∃ rep', live_count w' rep'
    ∧ (∀ p, p ∈ rep' → p ∈ reported ∨ terminal ev = Some p).
Proof.
  intros (Hnd & Hb & Hn) Hfresh Hstep. unfold live_count.
  assert (pq w' = pq w → workers w' = workers w →
          ∃ rep', live_count w' rep'
            ∧ (∀ p, p ∈ rep' → p ∈ reported ∨ terminal ev = Some p)) as Hsame.
  { intros Epq Ew. exists reported. split; [|by left].
    split; [done|]. rewrite Epq, Ew. done. }
  destruct ev as [t|r uuid|c msg|c|c| |pid code|pid m|pid|i io_ok].
  - rewrite step_advance in Hstep. simplify_eq. by apply Hsame.
  - destruct (step_connection w r uuid)
      as (w'' & Hw'' & _ & _ & _ & Epq & _ & Ew & _).
    simplify_eq. by apply Hsame.
  - destruct (sessions w !! c) as [s|] eqn:Es.
    2:{ rewrite step_absent_message in Hstep by done. simplify_eq.
        by apply Hsame. }
    destruct (step_message w c msg s Es)
      as (w'' & Hw'' & (Epq & _ & _ & Ew & _) & _).
    simplify_eq. by apply Hsame.
  - destruct (sessions w !! c) as [s|] eqn:Es.
    2:{ rewrite step_absent_close in Hstep by done. simplify_eq.
        by apply Hsame. }
    destruct (tempStream s) as [path|] eqn:Ets.
    2:{ by rewrite (step_close_released w c s) in Hstep. }
    destruct (step_close w c s path Es Ets)
      as (w'' & Hw'' & _ & _ & _ & Epq & _ & _ & Ew & _).
    simplify_eq. by apply Hsame.
  - destruct (sessions w !! c) as [s|] eqn:Es.
    2:{ rewrite step_absent_finish in Hstep by done. simplify_eq.
        by apply Hsame. }
    destruct (step_finish w c s Es)
      as (w'' & Hw'' & _ & _ & Ew & _ & _ & _ & _ & _ & En & _).
    simplify_eq. exists reported. split; [|by left].
    split; [done|]. rewrite Ew, En. done.
  - destruct (nextTicks w) as [|[|c a] rest] eqn:Eticks.
    + rewrite step_idle_tick in Hstep by done. simplify_eq. by apply Hsame.
    + destruct (step_tick_process w rest Eticks)
        as (w'' & Hw'' & _ & _ & _ & _ & _ & _ & _ & _ & _ & _ & _ & Hcase).
      simplify_eq. exists reported. split; [|by left].
      destruct (q (pq w)) as [|head others] eqn:Eq.
      { destruct Hcase as (-> & -> & _). done. }
      destruct Hcase as (_ & Hcase).
      case_bool_decide; destruct Hcase as (En & Ew & _).
      * split; [done|]. rewrite Ew, En. done.
      * split; [done|]. rewrite Ew, En, length_app. simpl. split.
        -- intros p Hp. specialize (Hb p Hp). lia.
        -- lia.
    + destruct (step_tick_location w c a rest Eticks)
        as (w'' & Hw'' & _ & _ & _ & Epq & _ & Ew & _).
      simplify_eq. by apply Hsame.
  - destruct (workers w !! pid) as [id'|] eqn:Ew'.
    2:{ rewrite step_absent_exit in Hstep by done. simplify_eq.
        by apply Hsame. }
    destruct (step_worker_exit w pid code id' Ew')
      as (w'' & Hw'' & _ & _ & _ & _ & Ew & _ & _ & _ & En & _).
    simplify_eq. exists (pid :: reported).
    assert (pid ∉ reported) as Hpid by (by apply Hfresh).
    assert ((pid < length (workers w))%nat) as Hlt
      by (by eapply lookup_lt_Some).
    assert (NoDup (pid :: reported)) as Hnd' by (by constructor).
    assert (∀ p, p ∈ pid :: reported → (p < length (workers w))%nat) as Hb'.
    { intros p [->|?]%elem_of_cons; eauto. }
    pose proof (bounded_NoDup_length _ _ Hnd' Hb') as Hlen. simpl in Hlen.
    split.
    + split; [done|]. rewrite Ew, En. split; [done|]. simpl length. lia.
    + intros p [->|?]%elem_of_cons; [by right|by left].
  - destruct (workers w !! pid) as [id'|] eqn:Ew'.
    2:{ rewrite step_absent_worker_message in Hstep by done. simplify_eq.
        by apply Hsame. }
    destruct (step_worker_message w pid m id' Ew')
      as (w'' & Hw'' & _ & Epq & _ & _ & _ & Ew & _).
    simplify_eq. by apply Hsame.
  - destruct (workers w !! pid) as [id'|] eqn:Ew'.
    2:{ rewrite step_absent_error in Hstep by done. simplify_eq.
        by apply Hsame. }
    destruct (step_worker_error w pid id' Ew')
      as (w'' & Hw'' & _ & En & _ & _ & Ew & _).
    simplify_eq. exists (pid :: reported).
    assert (pid ∉ reported) as Hpid by (by apply Hfresh).
    assert ((pid < length (workers w))%nat) as Hlt
      by (by eapply lookup_lt_Some).
    split.
    + split; [by constructor|]. rewrite Ew, En. split.
      * intros p [->|?]%elem_of_cons; eauto.
      * simpl length. lia.
    + intros p [->|?]%elem_of_cons; [by right|by left].
  - destruct (reads w !! i) as [id'|] eqn:Er'.
    2:{ rewrite step_absent_read in Hstep by done. simplify_eq.
        by apply Hsame. }
    destruct (step_readFile w i io_ok id' Er')
      as (w'' & Hw'' & _ & Epq & _ & _ & Ew & _).
    simplify_eq. by apply Hsame.
Qed.

Lemma drain_live_count fuel w w' reported :
  live_count w reported →
  drain fuel w = Some w' →
  ∃ rep', live_count w' rep' ∧ (∀ p, p ∈ rep' → p ∈ reported).
Proof.
  revert w reported. induction fuel as [|fuel IH]; intros w reported Hw Hd;
    simpl in Hd.
  - destruct (nextTicks w); simplify_eq; eauto.
  - destruct (nextTicks w) as [|t rest] eqn:Et; [simplify_eq; eauto|].
    destruct (step EvTick w) as [w1|] eqn:E1; [|done].
    destruct (step_live_count EvTick w w1 reported Hw) as (rep1 & Hd1 & Hsub1);
      [done..|].
    destruct (IH w1 rep1 Hd1 Hd) as (rep' & Hd' & Hsub').
    exists rep'. split; [done|]. intros p Hp.
    destruct (Hsub1 p (Hsub' p Hp)) as [?|?]; done.
Qed.

Lemma turns_live_count evs w w' reported :
  live_count w reported →
  NoDup (terminals evs) →
  (∀ p, p ∈ terminals evs → p ∉ reported) →
  turns evs w = Some w' →
  ∃ rep', live_count w' rep'.
Proof.
  revert w reported. induction evs as [|ev evs IH]; intros w reported Hw Hnd Hfresh Ht;
    simpl in Ht.
  - simplify_eq. eauto.
  - destruct (turn ev w) as [w1|] eqn:E1; [|done]. unfold turn in E1.
    destruct (step ev w) as [w0|] eqn:E0; simpl in E1; [|done].
    assert (∀ p, terminal ev = Some p → p ∉ reported) as Hfresh0.
    { intros p Hp. apply Hfresh. unfold terminals. simpl. rewrite Hp. by left. }
    destruct (step_live_count ev w w0 reported Hw Hfresh0 E0)
      as (rep0 & Hd0 & Hsub0).
    destruct (drain_live_count _ w0 w1 rep0 Hd0 E1) as (rep1 & Hd1 & Hsub1).
    apply (IH w1 rep1); [done| | |done].
    + unfold terminals in *. simpl in Hnd.
      destruct (terminal ev); [by apply NoDup_cons in Hnd as [??]|done].
    + intros p Hp Hin. destruct (Hsub0 p (Hsub1 p Hin)) as [Hold|Hnew].
      * apply (Hfresh p); [|done]. unfold terminals in *. simpl.
        destruct (terminal ev); [by right|done].
      * unfold terminals in *. simpl in Hnd. rewrite Hnew in Hnd.
        apply NoDup_cons in Hnd as [Hnotin _]. done.
Qed.

(** If no child reports twice (each emits ['exit'] or ['error'], not
    both and not twice), [numProc] never goes below zero and never
    above the number of children forked so far. *)
Theorem numProc_counts_live_children cpus evs w :
  NoDup (terminals evs) →
  turns evs (initial cpus) = Some w →
  0 ≤ numProc (pq w) ≤ Z.of_nat (length (workers w)).
Proof.
  intros Hnd Ht.
  destruct (turns_live_count evs (initial cpus) w [] ) as (reported & Hrep);
    [|done| |done|].
  - split; [constructor|]. split; [|done].
    intros p Hp. by apply elem_of_nil in Hp.
  - intros p _ Hp. by apply elem_of_nil in Hp.
  - by eapply live_count_bounds.
Qed.

(** A message that arrives after the close is not written: the write
    on [null] throws inside the [try], the exception is logged, and
    every file stays as it was.  The counter still moves if the text
    parsed. *)
Theorem late_message_is_not_written w c s msg :
  sessions w !! c = Some s →
  tempStream s = None →
  ∃ w' e,
    step (EvMessage c msg) w = Some w'
    ∧ files w' = files w
    ∧ console w' = console w ++ [LogErrorWhileProcessing e msg]
    ∧ sessions w' !! c =
        Some (mkSession (clientid s)
                (numberOfEvents s + (if JSON_parse msg is Some _ then 1 else 0))
                None)
    ∧ same_backend w w'.
Proof.
  intros Hs Hp. unfold same_backend.
  destruct s as [i n ts]. simpl in Hp. subst ts. simpl.
  unfold_m. rewrite Hs. simpl.
  unfold on_message, try_catch, JSON_parse_or_throw, obfuscate_in_place.
  unfold_m.
  destruct (JSON_parse msg) as [data|]; simpl.
  2:{ eexists _, _. split; [done|]. simpl. rewrite Hs.
      split_and!; try done. do 2 f_equal. lia. }
  destruct (index0 data) as [tag|e']; simpl.
  2:{ eexists _, _. split; [done|]. simpl.
      rewrite list_lookup_alter_eq, Hs. split_and!; try done. }
  destruct (is_getUserMedia tag); simpl.
  - rewrite list_lookup_alter_eq, Hs. simpl.
    eexists _, _. split; [done|]. simpl.
    rewrite list_lookup_alter_eq, Hs. split_and!; try done.
  - destruct (obfuscate data) as [data'|]; simpl.
    + rewrite list_lookup_alter_eq, Hs. simpl.
      eexists _, _. split; [done|]. simpl.
      rewrite list_lookup_alter_eq, Hs. split_and!; try done.
    + eexists _, _. split; [done|]. simpl.
      rewrite list_lookup_alter_eq, Hs. split_and!; try done.
Qed.

(** A second ['close'] on a connection is fatal: [tempStream] is
    [null], the write throws outside any [try], and the exception
    leaves the handler. *)
Theorem second_close_throws w c s :
  sessions w !! c = Some s →
  tempStream s = None →
  step (EvClose c) w = None ∧ turn (EvClose c) w = None.
Proof.
  intros Hs Hp. unfold turn.
  by rewrite (step_close_released w c s Hs Hp).
Qed.


(** One connection is not disturbed by the others: after its
    handshake, no event of another connection, of a worker or of the
    file system changes its closure or its log. *)
Theorem session_is_isolated w0 r id evs w1 w2 :
  let c := length (sessions w0) in
  nextTicks w0 = [] →
  fresh id w0 →
  turn (EvConnection r id) w0 = Some w1 →
  Forall (foreign c id) evs →
  turns evs w1 = Some w2 →
  sessions w2 !! c = sessions w1 !! c
  ∧ files w2 !! file_of id = files w1 !! file_of id.
Proof.
  intros c Hq Hfresh E1 Hevs E2.
  destruct (turn_connection w0 r id Hq Hfresh) as (w1' & E1' & Hw1 & _).
  simplify_eq.
  destruct (turns_foreign c id evs w1 w2 Hevs Hw1 E2) as (_ & ? & ?). done.
Qed.

(** *** The address of the caller *)

(** With a list in [x-forwarded-for], the entry after the last comma
    is the address, trimmed; what comes before it and the address of
    the socket play no part. *)
Theorem forwarded_for_last_entry_wins r before entry :
  header_x_forwarded_for r = Some (before +:+ "," +:+ entry) →
  has_comma entry = false →
  getRequestAddress r = Some (String_trim entry).
Proof.
  intros Hh He. unfold getRequestAddress. rewrite Hh.
  assert (truthy (Some (before +:+ "," +:+ entry)) = true) as ->.
  { unfold truthy, falsy. rewrite bool_decide_eq_false_2; [done|].
    by destruct before. }
  simpl. by rewrite last_token_after_comma.
Qed.

(** Without the header, or with an empty one, the address of the
    socket is used. *)
Lemma no_forwarded_for_uses_socket r :
  header_x_forwarded_for r = None ∨ header_x_forwarded_for r = Some "" →
  getRequestAddress r = remoteAddress r.
Proof. unfold getRequestAddress. by intros [-> | ->]. Qed.

(** A header that ends in a comma hides the caller: the last entry is
    empty, so no location is looked up and no location record is
    written, even though the socket has an address. *)
Theorem trailing_comma_drops_location r before c now :
  header_x_forwarded_for r = Some (before +:+ ",") →
  String_trim "" = "" →
  getRequestAddress r = Some ""
  ∧ location_ticks c r = []
  ∧ location_chunks r now = [].
Proof.
  intros Hh Htrim.
  assert (getRequestAddress r = Some "") as Ha.
  { rewrite (forwarded_for_last_entry_wins r before ""); [by rewrite Htrim| |done].
    by rewrite Hh. }
  unfold location_ticks, location_chunks. by rewrite Ha.
Qed.

End Coverage.

(** * The further properties on concrete runs *)

Section CoverageExamples.
Import Demo Samples WorkDir.

Lemma numProc_at_most_maxProc_witness :
  0 ≤ 2
  ∧ turns two_sessions (initial 2) = Some dispatched
  ∧ maxProc (pq dispatched) = 2 ∧ numProc (pq dispatched) ≤ 2.
Proof.
  split; [lia|]. split; [vm_compute; reflexivity|].
  apply (numProc_at_most_maxProc 2 two_sessions dispatched);
    [lia|vm_compute; reflexivity].
Defined.

Lemma numProc_counts_live_children_witness :
  NoDup (terminals each_reports_once)
  ∧ turns each_reports_once (initial 2)
    = Some (after (initial 2) each_reports_once)
  ∧ 0 ≤ numProc (pq (after (initial 2) each_reports_once))
      ≤ Z.of_nat (length (workers (after (initial 2) each_reports_once))).
Proof.
  assert (NoDup (terminals each_reports_once)) as Hnd.
  { apply (bool_decide_unpack _). vm_compute. exact I. }
  split; [exact Hnd|]. split; [vm_compute; reflexivity|].
  apply (numProc_counts_live_children 2 each_reports_once);
    [exact Hnd|vm_compute; reflexivity].
Defined.

Lemma finish_below_capacity_dispatches_head_witness :
  nextTicks talked = []
  ∧ sessions talked !! 0%nat = Some (mkSession "id-1" 2 None)
  ∧ 0 < numberOfEvents (mkSession "id-1" 2 None)
  ∧ numProc (pq talked) < maxProc (pq talked)
  ∧ ∃ w' head rest,
      turn (EvFinish 0) talked = Some w'
      ∧ q (pq talked) ++ [clientid (mkSession "id-1" 2 None)] = head :: rest
      ∧ q (pq w') = rest
      ∧ nextTicks w' = []
      ∧ files w' = files talked
      ∧ (head ≠ "" →
         workers w' = workers talked ++ [head]
         ∧ numProc (pq w') = numProc (pq talked) + 1
         ∧ outbox w' = outbox talked ++ [Fork "extract.js" head])
      ∧ (head = "" →
         workers w' = workers talked ∧ numProc (pq w') = numProc (pq talked)
         ∧ outbox w' = outbox talked).
Proof.
  split_and!; [reflexivity..|].
  apply (finish_below_capacity_dispatches_head talked 0
           (mkSession "id-1" 2 None)); reflexivity.
Defined.

Lemma finish_at_capacity_leaves_pending_witness :
  nextTicks third_closed = []
  ∧ sessions third_closed !! 2%nat = Some (mkSession "c" 1 None)
  ∧ 0 < numberOfEvents (mkSession "c" 1 None)
  ∧ maxProc (pq third_closed) ≤ numProc (pq third_closed)
  ∧ ∃ w', turn (EvFinish 2) third_closed = Some w'
      ∧ q (pq w') = q (pq third_closed) ++ [clientid (mkSession "c" 1 None)]
      ∧ numProc (pq w') = numProc (pq third_closed)
      ∧ workers w' = workers third_closed
      ∧ outbox w' = outbox third_closed
      ∧ nextTicks w' = []
      ∧ console w' =
          console third_closed ++ [LogQueueTooLong (numProc (pq third_closed))].
Proof.
  split_and!; [reflexivity..|].
  apply (finish_at_capacity_leaves_pending third_closed 2
           (mkSession "c" 1 None)); reflexivity.
Defined.

Lemma exit_dispatches_oldest_pending_witness :
  nextTicks third_pending = []
  ∧ workers third_pending !! 0%nat = Some "a"
  ∧ q (pq third_pending) = ["c"]
  ∧ "c" ≠ ""
  ∧ Z.max 0 (numProc (pq third_pending) - 1) < maxProc (pq third_pending)
  ∧ ∃ w', turn (EvWorkerExit 0 (Some 0)) third_pending = Some w'
      ∧ q (pq w') = []
      ∧ workers w' = workers third_pending ++ ["c"]
      ∧ numProc (pq w') = Z.max 0 (numProc (pq third_pending) - 1) + 1
      ∧ reads w' = reads third_pending ++ ["a"]
      ∧ nextTicks w' = [].
Proof.
  split_and!; [reflexivity|reflexivity|reflexivity|done|reflexivity|].
  apply (exit_dispatches_oldest_pending third_pending 0 (Some 0) "a" "c" []);
    [reflexivity|reflexivity|reflexivity|done|reflexivity].
Defined.

Lemma only_counted_sessions_are_extracted_witness :
  turns two_sessions (initial 2) = Some dispatched
  ∧ ("a" ∈ q (pq dispatched) ∨ "a" ∈ workers dispatched ∨ "a" ∈ reads dispatched)
  ∧ counted_session "a" dispatched.
Proof.
  assert ("a" ∈ workers dispatched) as Hin.
  { apply (bool_decide_unpack _). vm_compute. exact I. }
  split; [vm_compute; reflexivity|]. split; [by right; left|].
  apply (only_counted_sessions_are_extracted 2 two_sessions dispatched "a");
    [vm_compute; reflexivity|by right; left].
Defined.

Lemma connected_counts_open_connections_witness :
  turns (EvConnection request1 "id-1" :: aftermath) (initial 2)
  = Some (after (initial 2) (EvConnection request1 "id-1" :: aftermath))
  ∧ connected (after (initial 2) (EvConnection request1 "id-1" :: aftermath))
    = open_connections
        (after (initial 2) (EvConnection request1 "id-1" :: aftermath)).
Proof.
  split; [vm_compute; reflexivity|].
  apply (connected_counts_open_connections 2
           (EvConnection request1 "id-1" :: aftermath)).
  vm_compute; reflexivity.
Defined.

Lemma session_is_isolated_witness :
  nextTicks start = []
  ∧ fresh "id-1" start
  ∧ turn (EvConnection request1 "id-1") start = Some streaming0
  ∧ Forall (foreign (length (sessions start)) "id-1") aftermath
  ∧ turns aftermath streaming0 = Some (after streaming0 aftermath)
  ∧ sessions (after streaming0 aftermath) !! length (sessions start)
    = sessions streaming0 !! length (sessions start)
  ∧ files (after streaming0 aftermath) !! file_of "id-1"
    = files streaming0 !! file_of "id-1".
Proof.
  assert (Forall (foreign (length (sessions start)) "id-1") aftermath)
    as Hafter.
  { repeat (constructor; [done|]). constructor. }
  split_and!; [reflexivity|apply start_is_fresh|vm_compute; reflexivity
              |exact Hafter|vm_compute; reflexivity|..].
  all: apply (session_is_isolated start request1 "id-1" aftermath streaming0
                (after streaming0 aftermath));
    [reflexivity|apply start_is_fresh|vm_compute; reflexivity
    |exact Hafter|vm_compute; reflexivity].
Defined.

(** On two runs: the log of connection 0 from its handshake to its
    close, which only grows; and the log of a connection that counted
    nothing, deleted at ['finish'], which stays away while another
    client connects and talks. *)
Lemma log_is_append_only_witness :
  Forall (λ ev, ¬ reopens (file_of "id-1") ev) (talk ++ [EvClose 0])
  ∧ turns (talk ++ [EvClose 0]) streaming0 = Some talked
  ∧ (∃ old more,
       files streaming0 !! file_of "id-1" = Some old
       ∧ files talked !! file_of "id-1" = Some (old +:+ more)
       ∧ length (log_lines old) = 3%nat
       ∧ length (log_lines (old +:+ more)) = 5%nat)
  ∧ Forall (λ ev, ¬ reopens (file_of "id-1") ev) aftermath
  ∧ turns aftermath (after silent [EvFinish 0])
    = Some (after silent (EvFinish 0 :: aftermath))
  ∧ files silent !! file_of "id-1" ≠ None
  ∧ files (after silent [EvFinish 0]) !! file_of "id-1" = None
  ∧ files (after silent (EvFinish 0 :: aftermath)) !! file_of "id-1" = None.
Proof.
  assert (Forall (λ ev, ¬ reopens (file_of "id-1") ev) (talk ++ [EvClose 0]))
    as Hno.
  { repeat (constructor; [by intros []|]). constructor. }
  assert (Forall (λ ev, ¬ reopens (file_of "id-1") ev) aftermath) as Hafter.
  { constructor; [by intros ?%file_of_inj|].
    constructor; [by intros []|]. constructor. }
  assert (files (after silent [EvFinish 0]) !! file_of "id-1" = None) as Hgone
    by (vm_compute; reflexivity).
  split_and!; [exact Hno|vm_compute; reflexivity| |exact Hafter
              |vm_compute; reflexivity|vm_compute; discriminate|exact Hgone|].
  - set (old := default "" (files streaming0 !! file_of "id-1")).
    assert (files streaming0 !! file_of "id-1" = Some old) as Eold
      by (vm_compute; reflexivity).
    pose proof (log_is_append_only (file_of "id-1") (talk ++ [EvClose 0])
                  streaming0 talked Hno) as Hlog.
    rewrite Eold in Hlog.
    destruct Hlog as [Hnone|[more Hmore]]; [vm_compute; reflexivity| |].
    { exfalso. revert Hnone. vm_compute. discriminate. }
    exists old, more. split; [exact Eold|]. split; [exact Hmore|].
    split; [vm_compute; reflexivity|].
    assert (old +:+ more = default "" (files talked !! file_of "id-1")) as ->
      by (rewrite Hmore; reflexivity).
    vm_compute; reflexivity.
  - pose proof (log_is_append_only (file_of "id-1") aftermath
                  (after silent [EvFinish 0])
                  (after silent (EvFinish 0 :: aftermath)) Hafter) as Hlog.
    rewrite Hgone in Hlog. apply Hlog. vm_compute; reflexivity.
Defined.

Lemma late_message_is_not_written_witness :
  sessions talked !! 0%nat = Some (mkSession "id-1" 2 None)
  ∧ tempStream (mkSession "id-1" 2 None) = None
  ∧ ∃ w' e,
      step (EvMessage 0 gum_text) talked = Some w'
      ∧ files w' = files talked
      ∧ console w' = console talked ++ [LogErrorWhileProcessing e gum_text]
      ∧ sessions w' !! 0%nat =
          Some (mkSession (clientid (mkSession "id-1" 2 None))
                  (numberOfEvents (mkSession "id-1" 2 None)
                   + (if JSON_parse gum_text is Some _ then 1 else 0))
                  None)
      ∧ same_backend talked w'.
Proof.
  split_and!; [reflexivity..|].
  apply (late_message_is_not_written talked 0 (mkSession "id-1" 2 None)
           gum_text); reflexivity.
Defined.

Lemma second_close_throws_witness :
  sessions talked !! 0%nat = Some (mkSession "id-1" 2 None)
  ∧ tempStream (mkSession "id-1" 2 None) = None
  ∧ step (EvClose 0) talked = None ∧ turn (EvClose 0) talked = None.
Proof.
  split_and!; [reflexivity..| |].
  all: apply (second_close_throws talked 0 (mkSession "id-1" 2 None));
    reflexivity.
Defined.

Lemma forwarded_for_last_entry_wins_witness :
  header_x_forwarded_for proxied = Some ("10.0.0.1" +:+ "," +:+ " 203.0.113.7")
  ∧ has_comma " 203.0.113.7" = false
  ∧ getRequestAddress proxied = Some (String_trim " 203.0.113.7").
Proof.
  split_and!; [reflexivity..|].
  apply (forwarded_for_last_entry_wins proxied "10.0.0.1" " 203.0.113.7");
    reflexivity.
Defined.

Lemma trailing_comma_drops_location_witness :
  header_x_forwarded_for cut_short = Some ("10.0.0.1" +:+ ",")
  ∧ String_trim "" = ""
  ∧ getRequestAddress cut_short = Some ""
  ∧ location_ticks 0 cut_short = []
  ∧ location_chunks cut_short 1000 = [].
Proof.
  split_and!; [reflexivity..| | |].
  all: apply (trailing_comma_drops_location cut_short "10.0.0.1" 0 1000);
    reflexivity.
Defined.

Lemma setupWorkDirectory_result_witness :
  thrown (setupWorkDirectory (Directory two_logs)) = None
  ∧ left_at_temp (setupWorkDirectory (Directory two_logs)) = Directory []
  ∧ (printed (setupWorkDirectory (Directory two_logs)) = true
     ↔ Directory two_logs = Missing).
Proof.
  split; [reflexivity|].
  apply (setupWorkDirectory_result (Directory two_logs)). reflexivity.
Defined.

Lemma setupWorkDirectory_subdirectory_witness :
  Forall is_file [("id-1", RegularFile "{}")]
  ∧ setupWorkDirectory (Directory with_directory)
    = mkOutcome (Directory [("old", Subdirectory); ("id-2", RegularFile "{}")])
        true (Some EEXIST).
Proof.
  assert (Forall is_file [("id-1", RegularFile "{}")]) as Hf.
  { repeat constructor. }
  split; [exact Hf|].
  apply (setupWorkDirectory_subdirectory [("id-1", RegularFile "{}")] "old"
           [("id-2", RegularFile "{}")] Hf).
Defined.

End CoverageExamples.
